(** * skbio.diversity._driver: metric dispatch and pairwise computation

    A shallow embedding of [src/skbio/diversity/_driver.py]:
    [get_alpha_diversity_metrics], [get_beta_diversity_metrics],
    [alpha_diversity], [_partial_pw] and [beta_diversity].

    Python values are modelled as follows.
    - A sample (one row of [counts]) is a value of an abstract type [Row];
      the driver never looks inside a row, it only hands rows to metrics.
    - A score or distance (a Python float) is a value of a type [D] with a
      zero, an addition and a test for NaN ([Scalar]). Floats are taken up
      to numpy's [==], so [0.0] and [-0.0] are one value; NaN is a value
      that [==] no value, itself included ([np_eq]).
    - A [str] is a Rocq string whose characters are the code points below
      256.
    - A keyword-argument dictionary is a [gmap string V], [V] being the
      type of Python objects passed by keyword.
    - [metric] has its documented type, [str] or callable.
    - A raised exception is the left injection of a sum; every computation
      also carries the list of external calls it made, in order, so that
      "before" and "without computing" can be stated. *)

From stdpp Require Import base list strings gmap sets pretty sorting.

Open Scope string_scope.
Open Scope list_scope.
Open Scope nat_scope.

(** ** Exceptions *)

Inductive exn :=
  | ValueError (msg : string)
  | TypeError (msg : string)
  | IndexError (msg : string)
  | KeyError (key : string)
  | MissingNodeError (msg : string)
  | DuplicateNodeError (msg : string)
  | DistanceMatrixError (msg : string).

(** The spec's "input error" is Python's [ValueError]. *)
Definition is_input_error (e : exn) : bool :=
  match e with ValueError _ => true | _ => false end.

(** ** Scalars

    What the driver needs of floats: [0.0] (from [np.zeros]), [+] (from
    [dm + dm.T]) and [==] (from the validity checks of [squareform]).
    [is_nan] tells the NaN values; adding [0.0] changes no value, NaN
    included. *)

Class Scalar (D : Type) := {
  dzero : D;
  dadd : D → D → D;
  is_nan : D → bool;
  scalar_eq_dec :: EqDecision D;
  dzero_not_nan : is_nan dzero = false;
  dadd_0_l : ∀ x, dadd dzero x = x;
  dadd_0_r : ∀ x, dadd x dzero = x;
  dadd_comm : ∀ x y, dadd x y = dadd y x
}.

(** numpy's [x == y] on two floats: NaN equals nothing. *)
Definition np_eq {D} `{!Scalar D} (x y : D) : bool :=
  negb (is_nan x) && negb (is_nan y) && bool_decide (x = y).

(** Integers as scalars: no NaN among them. *)
#[global, refine] Instance Z_scalar : Scalar Z :=
  {| dzero := 0%Z; dadd := Z.add; is_nan := λ _, false |}.
Proof. all: intros; (reflexivity || lia). Defined.

(** Integers and one NaN, which absorbs addition. *)
Inductive znan :=
  | Num (z : Z)
  | NaN.

#[global] Instance znan_eq_dec : EqDecision znan.
Proof. solve_decision. Defined.

Definition znan_add (x y : znan) : znan :=
  match x, y with
  | Num a, Num b => Num (a + b)
  | _, _ => NaN
  end.

#[global, refine] Instance znan_scalar : Scalar znan :=
  {| dzero := Num 0; dadd := znan_add;
     is_nan := λ x, match x with NaN => true | Num _ => false end |}.
Proof.
  - reflexivity.
  - intros [z|]; simpl; [f_equal; lia|reflexivity].
  - intros [z|]; simpl; [f_equal; lia|reflexivity].
  - intros [a|] [b|]; simpl; try reflexivity. f_equal. lia.
Defined.

(** ** Python's [repr] of a [str] (the [%r] of the error message)

    Quote choice and escapes as in CPython, over the code points below
    256: a backslash and the chosen quote take a backslash, tab, newline
    and carriage return their letter, and every other non-printable code
    point (below 32, 127 to 160, and 173) is written [\xhh]. *)

Definition squote : Ascii.ascii := Ascii.ascii_of_nat 39.
Definition dquote : Ascii.ascii := Ascii.ascii_of_nat 34.
Definition backslash : Ascii.ascii := Ascii.ascii_of_nat 92.

Fixpoint str_contains (c : Ascii.ascii) (s : string) : bool :=
  match s with
  | EmptyString => false
  | String a s' => if Ascii.eqb a c then true else str_contains c s'
  end.

Definition hex_digit (n : nat) : Ascii.ascii :=
  if Nat.ltb n 10 then Ascii.ascii_of_nat (48 + n) else Ascii.ascii_of_nat (87 + n).

Definition repr_char (q : Ascii.ascii) (a : Ascii.ascii) : string :=
  let n := Ascii.nat_of_ascii a in
  if Ascii.eqb a backslash then String backslash (String backslash EmptyString)
  else if Ascii.eqb a q then String backslash (String q EmptyString)
  else if Nat.eqb n 9 then String backslash "t"
  else if Nat.eqb n 10 then String backslash "n"
  else if Nat.eqb n 13 then String backslash "r"
  else if Nat.ltb n 32 || (Nat.leb 127 n && Nat.leb n 160) || Nat.eqb n 173 then
    String backslash
      ("x" +:+ String (hex_digit (n / 16)) (String (hex_digit (n mod 16)) EmptyString))
  else String a EmptyString.

Fixpoint repr_body (q : Ascii.ascii) (s : string) : string :=
  match s with
  | EmptyString => EmptyString
  | String a s' => repr_char q a +:+ repr_body q s'
  end.

Definition repr (s : string) : string :=
  let q := if str_contains squote s && negb (str_contains dquote s)
           then dquote else squote in
  String q (repr_body q s) +:+ String q EmptyString.

(** ** Python's [sorted] on a list of [str] *)

Definition str_le (a b : string) : Prop := String.leb a b = true.

#[global] Instance str_le_dec a b : Decision (str_le a b).
Proof. unfold str_le. apply _. Defined.

Definition sorted (l : list string) : list string := merge_sort str_le l.

Section driver.

Context {Row D V : Type} `{!Scalar D}.

(** ** Computations: a call log and a result or an exception *)

Inductive event :=
  | EvValidate
  | EvPhylogeneticKwargs
  | EvTreeSetup (routine : string)
  | EvAlphaMetric (c : Row)
  | EvBetaMetric (a b : Row)
  | EvPairwise.

Definition M (A : Type) : Type := list event * (exn + A).

#[global] Instance M_ret : MRet M := λ A x, ([], inr x).

#[global] Instance M_bind : MBind M := λ A B k m,
  match m with
  | (t, inl e) => (t, inl e)
  | (t, inr x) => let '(t', r) := k x in (t ++ t', r)
  end.

Definition raise {A} (e : exn) : M A := ([], inl e).

(** An external call: it is logged, then its result or exception is taken. *)
Definition external {A} (ev : event) (r : exn + A) : M A := ([ev], r).

(** A step that can raise but calls nothing external. *)
Definition pure_step {A} (r : exn + A) : M A := ([], r).

Definition trace {A} (m : M A) : list event := m.1.
Definition outcome {A} (m : M A) : exn + A := m.2.

(** A [for] loop threading a state. *)
Fixpoint for_each {A S} (body : S → A → M S) (s : S) (l : list A) : M S :=
  match l with
  | [] => mret s
  | x :: l' => s' ← body s x; for_each body s' l'
  end.

(** ** Keyword arguments and callables *)

Definition callable1 : Type := gmap string V → Row → exn + D.
Definition callable2 : Type := gmap string V → Row → Row → exn + D.

(** [functools.partial(f, **kw)]: keywords given at the call override the
    bound ones. *)
Definition partial1 (f : callable1) (kw : gmap string V) : callable1 :=
  λ kw', f (kw' ∪ kw).
Definition partial2 (f : callable2) (kw : gmap string V) : callable2 :=
  λ kw', f (kw' ∪ kw).

Definition call1 (f : callable1) (kw : gmap string V) (c : Row) : M D :=
  external (EvAlphaMetric c) (f kw c).
Definition call2 (f : callable2) (kw : gmap string V) (a b : Row) : M D :=
  external (EvBetaMetric a b) (f kw a b).

Inductive alpha_metric :=
  | AName (name : string)
  | ACallable (f : callable1).

Inductive beta_metric :=
  | BName (name : string)
  | BCallable (f : callable2).

(** [callable(metric)] and [isinstance(metric, str)]. *)
Definition callable (m : beta_metric) : bool :=
  match m with BCallable _ => true | BName _ => false end.
Definition isinstance_str (m : beta_metric) : bool :=
  match m with BName _ => true | BCallable _ => false end.

(** ** Dense square arrays (numpy) *)

(** [np.zeros((n, n))] *)
Definition zeros (n : nat) : list (list D) := replicate n (replicate n dzero).

(** [X[i, j]] read inside the bounds. *)
Definition cell (X : list (list D)) (i j : nat) : D :=
  default dzero (X !! i ≫= (.!! j)).

(** [X[u, v] = x]; numpy raises [IndexError] outside the bounds. *)
Definition setitem (X : list (list D)) (u v : nat) (x : D) : exn + list (list D) :=
  match X !! u with
  | Some row =>
      if decide (v < length row) then inr (<[u := <[v := x]> row]> X)
      else inl (IndexError "index is out of bounds for axis 1")
  | None => inl (IndexError "index is out of bounds for axis 0")
  end.

(** [X.T] *)
Definition transpose (X : list (list D)) : list (list D) :=
  (λ j, (λ row, default dzero (row !! j)) <$> X) <$> seq 0 (length (hd [] X)).

(** [X + Y] for arrays of one shape. *)
Definition madd (X Y : list (list D)) : list (list D) := zip_with (zip_with dadd) X Y.

(** Index pairs [(i, j)], [i < j < n], row-major: the order of a condensed
    distance vector. *)
Definition index_pairs (n : nat) : list (nat * nat) :=
  i ← seq 0 n; (λ j, (i, j)) <$> seq (S i) (n - S i).

Definition upper_triangle (X : list (list D)) : list D :=
  (λ '(i, j), cell X i j) <$> index_pairs (length X).

Definition is_square (X : list (list D)) : bool :=
  forallb (λ row, Nat.eqb (length row) (length X)) X.

(** [(X == X.T).all()] *)
Definition is_symmetric (X : list (list D)) : bool :=
  forallb (λ i, forallb (λ j, np_eq (cell X i j) (cell X j i))
                        (seq 0 (length X)))
          (seq 0 (length X)).

(** [(X[range(d), range(d)] == 0).all()] *)
Definition is_hollow (X : list (list D)) : bool :=
  forallb (λ i, np_eq (cell X i i) dzero) (seq 0 (length X)).

(** [scipy.spatial.distance.squareform] on a 2-D array, with its default
    [checks=True]: the array must be square, symmetric and of zero
    diagonal; the result is its upper triangle, row-major. An array that
    holds a NaN is not equal to its transpose and is refused. *)
Definition squareform (X : list (list D)) : exn + list D :=
  if negb (is_square X) then
    inl (ValueError "The matrix argument must be square.")
  else if negb (is_symmetric X) then
    inl (ValueError "Distance matrix 'X' must be symmetric.")
  else if negb (is_hollow X) then
    inl (ValueError "Distance matrix 'X' diagonal must be zero.")
  else inr (upper_triangle X).

(** [counts[i]] *)
Definition getitem (counts : list Row) (i : nat) : exn + Row :=
  match counts !! i with
  | Some c => inr c
  | None => inl (IndexError "index is out of bounds for axis 0")
  end.

(** [d[k]] on a dict with [str] keys. *)
Definition dict_getitem {A} (d : gmap string A) (k : string) : exn + A :=
  match d !! k with
  | Some x => inr x
  | None => inl (KeyError k)
  end.

(** ** [_partial_pw] (lines 185-241) *)

(** [itertools.chain.from_iterable(id_pairs)] *)
Definition chain_from_iterable (id_pairs : list (string * string)) : list string :=
  '(u, v) ← id_pairs; [u; v].

(** [i[::-1]] on a 2-tuple. *)
Definition reversed (p : string * string) : string * string := (p.2, p.1).

(** [{i for i in id_pairs}.union({i[::-1] for i in id_pairs})] *)
Definition hashes (id_pairs : list (string * string)) : gset (string * string) :=
  list_to_set id_pairs ∪ list_to_set (reversed <$> id_pairs).

(** [{id_: idx for idx, id_ in enumerate(ids)}]: a later row with the same
    id replaces the earlier one. *)
Definition enumerate {A} (l : list A) : list (nat * A) :=
  zip (seq 0 (length l)) l.

Definition id_index_step (m : gmap string nat) (e : nat * string)
    : gmap string nat :=
  let '(idx, id_) := e in <[id_ := idx]> m.

Definition make_id_index (ids : list string) : gmap string nat :=
  foldl id_index_step ∅ (enumerate ids).

(** One turn of the loop of lines 236-239: the generator yields the indices
    of the pair, the metric is called on the two rows, the value is stored
    in [dm[u, v]]. *)
Definition fill_step (id_index : gmap string nat) (counts : list Row)
    (metric : callable2) (kwargs : gmap string V)
    (dm : list (list D)) (p : string * string) : M (list (list D)) :=
  u ← pure_step (dict_getitem id_index p.1);
  v ← pure_step (dict_getitem id_index p.2);
  cu ← pure_step (getitem counts u);
  cv ← pure_step (getitem counts v);
  x ← call2 metric kwargs cu cv;
  pure_step (setitem dm u v x).

(** Lines 234-239: the matrix [dm] when the loop is over. *)
Definition fill_dm (ids : list string) (id_pairs : list (string * string))
    (counts : list Row) (metric : callable2) (kwargs : gmap string V) : M (list (list D)) :=
  for_each (fill_step (make_id_index ids) counts metric kwargs)
           (zeros (length ids)) id_pairs.

(** The loop as section 4.4 of the spec words it, for comparison with
    [fill_step]: the value is written "into both (u,v) and (v,u) cells". *)
Definition fill_step_both_cells (id_index : gmap string nat) (counts : list Row)
    (metric : callable2) (kwargs : gmap string V)
    (dm : list (list D)) (p : string * string) : M (list (list D)) :=
  u ← pure_step (dict_getitem id_index p.1);
  v ← pure_step (dict_getitem id_index p.2);
  cu ← pure_step (getitem counts u);
  cv ← pure_step (getitem counts v);
  x ← call2 metric kwargs cu cv;
  dm ← pure_step (setitem dm u v x);
  pure_step (setitem dm v u x).

(** ... followed, in the spec's words, by "adding its transpose ... and
    extracting the upper triangle". *)
Definition fold_as_described (ids : list string)
    (id_pairs : list (string * string)) (counts : list Row)
    (metric : callable2) (kwargs : gmap string V) : M (list D) :=
  dm ← for_each (fill_step_both_cells (make_id_index ids) counts metric kwargs)
                (zeros (length ids)) id_pairs;
  pure_step (squareform (madd dm (transpose dm))).

Definition _partial_pw (ids : option (list string))
    (id_pairs : list (string * string)) (counts : list Row)
    (metric : beta_metric) (kwargs : gmap string V) : M (list D) :=
  match ids with
  | None => raise (ValueError "`ids` must be specified if `id_pairs` is specified")
  | Some ids =>
      let all_ids_in_pairs : gset string :=
        list_to_set (chain_from_iterable id_pairs) in
      if negb (bool_decide (all_ids_in_pairs ⊆ list_to_set ids)) then
        raise (ValueError "`id_pairs` are not a subset of `ids`")
      else if negb (Nat.eqb (size (hashes id_pairs)) (length id_pairs * 2)) then
        raise (ValueError "Duplicate ID pairs observed.")
      else
        match metric with
        | BName _ => raise (ValueError "`metric` must be callable")
        | BCallable f =>
            dm ← fill_dm ids id_pairs counts f kwargs;
            pure_step (squareform (madd dm (transpose dm)))
        end
  end.

(** ** Collaborators that are not in [_driver.py]

    The functions the driver imports and calls. Each returns a value or
    raises; nothing more is assumed of them. *)

Record externals := {
  (** [skbio.diversity._util._validate_counts_matrix(counts, ids=ids)] *)
  _validate_counts_matrix : list Row → option (list string) → exn + list Row;
  (** the attribute [skbio.diversity.alpha.<name>] *)
  skbio_diversity_alpha : string → callable1;
  (** [_setup_faith_pd(counts, otu_ids, tree, validate, single_sample=False)],
      giving [(counts_by_node, branch_lengths)] *)
  _setup_faith_pd : list Row → V → V → bool → exn + (list Row * V);
  _faith_pd : callable1;
  (** [_setup_multiple_unweighted_unifrac(counts, otu_ids, tree, validate)],
      giving [(metric, counts_by_node)] *)
  _setup_multiple_unweighted_unifrac :
    list Row → V → V → bool → exn + (callable2 * list Row);
  (** [_setup_multiple_weighted_unifrac(counts, otu_ids, tree, normalized,
      validate)], giving [(metric, counts_by_node)] *)
  _setup_multiple_weighted_unifrac :
    list Row → V → V → V → bool → exn + (callable2 * list Row);
  _normalize_weighted_unifrac_by_default : V;
  (** the metrics [scipy.spatial.distance.pdist] knows by name *)
  scipy_metric : string → option callable2
}.

Context (E : externals).

(** Modelled from the spec: [skbio.diversity._util._get_phylogenetic_kwargs]
    is not under src/. Section 6: "extract(counts, **kwargs) -> (otu_ids,
    tree, remaining_kwargs); fails if required tree/otu-id keywords are
    missing"; section 7 lists "missing required phylogenetic keywords"
    among the input errors. *)
Definition _get_phylogenetic_kwargs (counts : list Row) (kwargs : gmap string V)
    : exn + (V * V * gmap string V) :=
  match kwargs !! "otu_ids" with
  | None => inl (ValueError "`otu_ids` is required for phylogenetic diversity metrics.")
  | Some otu_ids =>
      match kwargs !! "tree" with
      | None => inl (ValueError "`tree` is required for phylogenetic diversity metrics.")
      | Some tree => inr (otu_ids, tree, delete "tree" (delete "otu_ids" kwargs))
      end
  end.

(** ** The metric registry (lines 27-111) *)

Definition _get_alpha_diversity_metric_map : gmap string callable1 :=
  let alpha := skbio_diversity_alpha E in
  list_to_map [
    ("ace", alpha "ace");
    ("chao1", alpha "chao1");
    ("chao1_ci", alpha "chao1_ci");
    ("berger_parker_d", alpha "berger_parker_d");
    ("brillouin_d", alpha "brillouin_d");
    ("dominance", alpha "dominance");
    ("doubles", alpha "doubles");
    ("enspie", alpha "enspie");
    ("esty_ci", alpha "esty_ci");
    ("faith_pd", alpha "faith_pd");
    ("fisher_alpha", alpha "fisher_alpha");
    ("goods_coverage", alpha "goods_coverage");
    ("heip_e", alpha "heip_e");
    ("kempton_taylor_q", alpha "kempton_taylor_q");
    ("margalef", alpha "margalef");
    ("mcintosh_d", alpha "mcintosh_d");
    ("mcintosh_e", alpha "mcintosh_e");
    ("menhinick", alpha "menhinick");
    ("michaelis_menten_fit", alpha "michaelis_menten_fit");
    ("observed_otus", alpha "observed_otus");
    ("osd", alpha "osd");
    ("pielou_e", alpha "pielou_e");
    ("robbins", alpha "robbins");
    ("shannon", alpha "shannon");
    ("simpson", alpha "simpson");
    ("simpson_e", alpha "simpson_e");
    ("singles", alpha "singles");
    ("strong", alpha "strong");
    ("gini_index", alpha "gini_index");
    ("lladser_pe", alpha "lladser_pe");
    ("lladser_ci", alpha "lladser_ci")].

Definition get_alpha_diversity_metrics : list string :=
  let metrics := _get_alpha_diversity_metric_map in
  sorted (map_to_list metrics).*1.

Definition get_beta_diversity_metrics : list string :=
  sorted ["unweighted_unifrac"; "weighted_unifrac"].

(** ** The result series of [alpha_diversity] *)

(** An index label of a [pd.Series]: a position or an identifier. *)
Inductive label :=
  | LInt (i : nat)
  | LStr (s : string).

Record Series := { values : list D; index : list label }.

(** Modelled from the spec: [pd.Series(results, index=ids)] belongs to
    pandas. Section 3: "ordered mapping from sample identifier to scalar
    score; order matches input row order"; section 8: "index equal to
    provided ids or range(n)" (the docstring of [alpha_diversity]: "By
    default, samples will be assigned integer identifiers"). An index of
    another length than the values is refused. *)
Definition pd_Series (results : list D) (ids : option (list string)) : exn + Series :=
  match ids with
  | None => inr {| values := results; index := LInt <$> seq 0 (length results) |}
  | Some ids =>
      if decide (length ids = length results)
      then inr {| values := results; index := LStr <$> ids |}
      else inl (ValueError "Length of values does not match length of index")
  end.

(** ** [alpha_diversity] (lines 114-182) *)

(** [metric == name] *)
Definition alpha_metric_eq (metric : alpha_metric) (name : string) : bool :=
  match metric with
  | AName n => bool_decide (n = name)
  | ACallable _ => false
  end.

Definition alpha_diversity (metric : alpha_metric) (counts : list Row)
    (ids : option (list string)) (validate : bool) (kwargs : gmap string V)
    : M Series :=
  let metric_map := _get_alpha_diversity_metric_map in
  counts ← (if validate
            then external EvValidate (_validate_counts_matrix E counts ids)
            else mret counts);
  '(metric, counts, kwargs) ←
    (if alpha_metric_eq metric "faith_pd" then
       '(otu_ids, tree, kwargs) ←
         external EvPhylogeneticKwargs (_get_phylogenetic_kwargs counts kwargs);
       '(counts_by_node, branch_lengths) ←
         external (EvTreeSetup "_setup_faith_pd")
                  (_setup_faith_pd E counts otu_ids tree validate);
       mret (partial1 (_faith_pd E) {["branch_lengths" := branch_lengths]},
             counts_by_node, kwargs)
     else
       match metric with
       | ACallable f => mret (partial1 f kwargs, counts, kwargs)
       | AName name =>
           match metric_map !! name with
           | Some f => mret (partial1 f kwargs, counts, kwargs)
           | None =>
               raise (ValueError ("Unknown metric provided: " +:+ repr name +:+ "."))
           end
       end);
  results ← mapM (call1 metric kwargs) counts;
  pure_step (pd_Series results ids).

(** ** The default all-pairs backend *)

(** Modelled from the spec: [scipy.spatial.distance.pdist] belongs to
    SciPy. Section 6: a backend is "any f(matrix, metric, **kwargs) ->
    condensed distance vector of length n*(n-1)/2 for n samples, produced
    in the standard row-major upper-triangle order"; the entry of rows
    [i < j] is [metric(X[i], X[j], **kwargs)]. *)
Definition pdist_with (f : callable2) (X : list Row) (kwargs : gmap string V)
    : M (list D) :=
  mapM (λ '(i, j),
          a ← pure_step (getitem X i);
          b ← pure_step (getitem X j);
          call2 f kwargs a b)
       (index_pairs (length X)).

Definition pdist (X : list Row) (metric : beta_metric) (kwargs : gmap string V)
    : M (list D) :=
  match metric with
  | BCallable f => pdist_with f X kwargs
  | BName name =>
      match scipy_metric E name with
      | Some f => pdist_with f X kwargs
      | None => raise (ValueError ("Unknown Distance Metric: " +:+ name))
      end
  end.

(** ** The distance structure of [beta_diversity] *)

Record DistanceMatrix := { condensed : list D; dm_ids : list string }.

(** The [n] with [n * (n - 1) / 2 = m]; the empty vector is that of a
    single sample. *)
Definition condensed_dim (m : nat) : option nat :=
  List.find (λ n, Nat.eqb (n * (n - 1) / 2) m) (seq 1 (S m)).

(** Modelled from the spec: [skbio.stats.distance.DistanceMatrix] is not
    under src/. Section 1: "an opaque result type constructed from a
    condensed (upper-triangular) vector of distances plus an ordered id
    list"; section 3: the identifiers are an "ordered sequence of unique
    identifiers, one per row" and "If absent, identifiers default to row
    position (as display strings)" (the docstring of [beta_diversity]:
    "the type of the identifiers will be str"); section 6: the constructor
    "enforces symmetry/zero-diagonal on construction". So: the vector must
    be that of a square matrix, the ids unique and as many as its rows,
    and no entry NaN (a NaN entry is not equal to its mirror entry). *)
Definition DistanceMatrix_new (distances : list D) (ids : option (list string))
    : exn + DistanceMatrix :=
  match condensed_dim (length distances) with
  | None => inl (ValueError "Incorrect size of condensed distance vector.")
  | Some n =>
      let ids := default (pretty <$> seq 0 n) ids in
      if negb (bool_decide (NoDup ids)) then
        inl (DistanceMatrixError "IDs must be unique.")
      else if negb (Nat.eqb (length ids) n) then
        inl (DistanceMatrixError
               "The number of IDs must match the number of rows in the data.")
      else if existsb is_nan distances then
        inl (DistanceMatrixError "Data must be symmetric.")
      else inr {| condensed := distances; dm_ids := ids |}
  end.

(** ** [beta_diversity] (lines 244-348) *)

Definition beta_metric_eq (metric : beta_metric) (name : string) : bool :=
  match metric with
  | BName n => bool_decide (n = name)
  | BCallable _ => false
  end.

Definition backend : Type :=
  list Row → beta_metric → gmap string V → M (list D).

(** Lines 309-310. *)
Definition beta_validate (counts : list Row) (ids : option (list string))
    (validate : bool) : M (list Row) :=
  if validate
  then external EvValidate (_validate_counts_matrix E counts ids)
  else mret counts.

(** Lines 312-335: metric resolution. *)
Definition beta_resolve (metric : beta_metric) (counts : list Row)
    (validate : bool) (kwargs : gmap string V)
    : M (beta_metric * list Row * gmap string V) :=
  if beta_metric_eq metric "unweighted_unifrac" then
    '(otu_ids, tree, kwargs) ←
      external EvPhylogeneticKwargs (_get_phylogenetic_kwargs counts kwargs);
    '(metric, counts_by_node) ←
      external (EvTreeSetup "_setup_multiple_unweighted_unifrac")
               (_setup_multiple_unweighted_unifrac E counts otu_ids tree validate);
    mret (BCallable metric, counts_by_node, kwargs)
  else if beta_metric_eq metric "weighted_unifrac" then
    let normalized :=
      default (_normalize_weighted_unifrac_by_default E) (kwargs !! "normalized") in
    let kwargs := delete "normalized" kwargs in
    '(otu_ids, tree, kwargs) ←
      external EvPhylogeneticKwargs (_get_phylogenetic_kwargs counts kwargs);
    '(metric, counts_by_node) ←
      external (EvTreeSetup "_setup_multiple_weighted_unifrac")
               (_setup_multiple_weighted_unifrac E counts otu_ids tree normalized
                                                 validate);
    mret (BCallable metric, counts_by_node, kwargs)
  else
    match metric with
    | BCallable f => mret (BCallable (partial2 f kwargs), counts, ∅)
    | BName name => mret (BName name, counts, kwargs)
    end.

(** Lines 337-345: backend selection. *)
Definition beta_backend (ids : option (list string))
    (pairwise_func : option backend)
    (id_pairs : option (list (string * string))) : M backend :=
  pairwise_func ←
    match id_pairs with
    | Some id_pairs =>
        match pairwise_func with
        | Some _ =>
            raise (ValueError "`pairwise_func` is not compatible with `id_pairs`")
        | None => mret (Some (_partial_pw ids id_pairs))
        end
    | None => mret pairwise_func
    end;
  mret (default pdist pairwise_func).

(** Line 347: the backend is called. *)
Definition invoke (pairwise_func : backend) (counts : list Row)
    (metric : beta_metric) (kwargs : gmap string V) : M (list D) :=
  external EvPairwise (inr ()) ;; pairwise_func counts metric kwargs.

Definition beta_diversity (metric : beta_metric) (counts : list Row)
    (ids : option (list string)) (validate : bool)
    (pairwise_func : option backend)
    (id_pairs : option (list (string * string))) (kwargs : gmap string V)
    : M DistanceMatrix :=
  counts ← beta_validate counts ids validate;
  '(metric, counts, kwargs) ← beta_resolve metric counts validate kwargs;
  pairwise_func ← beta_backend ids pairwise_func id_pairs;
  distances ← invoke pairwise_func counts metric kwargs;
  pure_step (DistanceMatrix_new distances ids).

End driver.

(** ** Vocabulary of the properties *)

(** The unordered pairs over [ids], each once, in row order: the pairs
    [itertools.combinations(ids, 2)] yields. *)
Fixpoint combinations2 {A} (l : list A) : list (A * A) :=
  match l with
  | [] => []
  | x :: l' => (pair x <$> l') ++ combinations2 l'
  end.

(** [p] and [q] name the same unordered pair. *)
Definition same_unordered (p q : string * string) : Prop :=
  p = q ∨ p = reversed q.

#[global] Instance reversed_inj : Inj (=) (=) reversed.
Proof. intros [a b] [c d]; unfold reversed; simpl. congruence. Qed.

(** [id_pairs] is the full set of unordered pairs over [ids]: every such
    pair once, listed in any order and written in either orientation. *)
Definition full_pair_set (ids : list string) (id_pairs : list (string * string))
    : Prop :=
  ∃ l, id_pairs ≡ₚ l ∧ Forall2 same_unordered l (combinations2 ids).

(** [id_pairs] holds the same unordered pair at two places. *)
Definition repeats_a_pair (id_pairs : list (string * string)) : Prop :=
  ∃ i j p q, i ≠ j ∧ id_pairs !! i = Some p ∧ id_pairs !! j = Some q ∧
             same_unordered p q.

(** The three checks of [_partial_pw] on [ids] and [id_pairs] pass. *)
Definition pairs_accepted (ids : list string) (id_pairs : list (string * string))
    : Prop :=
  list_to_set (chain_from_iterable id_pairs) ⊆@{gset string} list_to_set ids ∧
  size (hashes id_pairs) = length id_pairs * 2.

(** [X] is an [n] by [n] array. *)
Definition square {D} (n : nat) (X : list (list D)) : Prop :=
  length X = n ∧ Forall (λ row, length row = n) X.

(** In [_partial_pw], the pair [p] stands for the cell [(i, j)] of [dm]. *)
Definition cell_of (ids : list string) (p : string * string) (i j : nat) : Prop :=
  make_id_index ids !! p.1 = Some i ∧ make_id_index ids !! p.2 = Some j.

#[global] Instance cell_of_dec ids p i j : Decision (cell_of ids p i j).
Proof. unfold cell_of. apply _. Defined.

(** ... and for the rows [a = counts[i]] and [b = counts[j]]. *)
Definition resolves {Row} (ids : list string) (counts : list Row)
    (p : string * string) (i j : nat) (a b : Row) : Prop :=
  cell_of ids p i j ∧ counts !! i = Some a ∧ counts !! j = Some b.

(** On every listed pair the metric value [g a b] is not NaN. *)
Definition listed_not_nan {Row D} `{!Scalar D} (ids : list string)
    (counts : list Row) (id_pairs : list (string * string))
    (g : Row → Row → D) : Prop :=
  ∀ p i j a b, p ∈ id_pairs → resolves ids counts p i j a b →
               is_nan (g a b) = false.

(** ** Concrete collaborators and inputs for the examples *)

Definition row_sum (c : list Z) : Z := foldr Z.add 0%Z c.

(** A callable that is not symmetric in its two rows. *)
Definition row_difference : @callable2 (list Z) Z string :=
  λ _ a b, inr (row_sum a - row_sum b)%Z.

(** A symmetric callable. *)
Definition row_total : @callable2 (list Z) Z string :=
  λ _ a b, inr (row_sum a + row_sum b)%Z.

(** The number of non-zero entries of a row. *)
Definition count_nonzero (c : list Z) : Z :=
  Z.of_nat (length (filter (λ x, x ≠ 0%Z) c)).

Definition observed : @callable1 (list Z) Z string :=
  λ _ c, inr (count_nonzero c).

(** Collaborators that accept every input: validation returns the matrix
    as it is, the tree-aware setups keep the rows. *)
Definition easy_externals : @externals (list Z) Z string := {|
  _validate_counts_matrix := λ counts _, inr counts;
  skbio_diversity_alpha := λ _, observed;
  _setup_faith_pd := λ counts _ tree _, inr (counts, tree);
  _faith_pd := observed;
  _setup_multiple_unweighted_unifrac := λ counts _ _ _, inr (row_total, counts);
  _setup_multiple_weighted_unifrac := λ counts _ _ _ _, inr (row_total, counts);
  _normalize_weighted_unifrac_by_default := "False";
  scipy_metric := λ name, if bool_decide (name = "cityblock") then Some row_total else None
|}.

(** The same, but the tree lacks a tip: the unweighted setup raises. *)
Definition bad_tree_externals : @externals (list Z) Z string := {|
  _validate_counts_matrix := λ counts _, inr counts;
  skbio_diversity_alpha := λ _, observed;
  _setup_faith_pd := λ counts _ tree _, inr (counts, tree);
  _faith_pd := observed;
  _setup_multiple_unweighted_unifrac :=
    λ _ _ _ _, inl (MissingNodeError "OTU3 is not a tip of the tree");
  _setup_multiple_weighted_unifrac := λ counts _ _ _ _, inr (row_total, counts);
  _normalize_weighted_unifrac_by_default := "False";
  scipy_metric := λ _, None
|}.

Definition counts3 : list (list Z) := [[1; 3]; [1; 1]; [0; 1]]%Z.
Definition ids3 : list string := ["s1"; "s2"; "s3"].

Definition tree_kwargs : gmap string string :=
  {[ "otu_ids" := "OTU1,OTU2"; "tree" := "(OTU1:0.5,OTU2:0.5)root;" ]}.

(** ** More collaborators and inputs for the examples *)

(** [E] with another module [skbio.diversity.alpha]. *)
Definition with_alpha_module {Row D V : Type} (E : @externals Row D V)
    (alpha : string → @callable1 Row D V) : @externals Row D V := {|
  _validate_counts_matrix := _validate_counts_matrix E;
  skbio_diversity_alpha := alpha;
  _setup_faith_pd := _setup_faith_pd E;
  _faith_pd := _faith_pd E;
  _setup_multiple_unweighted_unifrac := _setup_multiple_unweighted_unifrac E;
  _setup_multiple_weighted_unifrac := _setup_multiple_weighted_unifrac E;
  _normalize_weighted_unifrac_by_default := _normalize_weighted_unifrac_by_default E;
  scipy_metric := scipy_metric E
|}.

(** A callable that refuses an empty sample. *)
Definition observed_nonempty : @callable1 (list Z) Z string :=
  λ _ c, if decide (row_sum c = 0%Z)
         then inl (ValueError "empty sample")
         else inr (count_nonzero c).

(** A callable that refuses an empty second sample. *)
Definition row_ratio : @callable2 (list Z) Z string :=
  λ _ a b, if decide (row_sum b = 0%Z)
           then inl (ValueError "empty sample")
           else inr (row_sum a / row_sum b)%Z.

(** Collaborators whose validation refuses the matrix. *)
Definition strict_externals : @externals (list Z) Z string :=
  {| _validate_counts_matrix :=
       λ _ _, inl (ValueError "Counts vector cannot contain negative values.");
     skbio_diversity_alpha := skbio_diversity_alpha easy_externals;
     _setup_faith_pd := _setup_faith_pd easy_externals;
     _faith_pd := _faith_pd easy_externals;
     _setup_multiple_unweighted_unifrac :=
       _setup_multiple_unweighted_unifrac easy_externals;
     _setup_multiple_weighted_unifrac :=
       _setup_multiple_weighted_unifrac easy_externals;
     _normalize_weighted_unifrac_by_default := "False";
     scipy_metric := scipy_metric easy_externals |}.

Definition counts_with_empty : list (list Z) := [[1; 3]; [0; 0]; [0; 1]]%Z.

(** A ratio of row sums that is NaN on an empty second sample, as 0/0 is
    for floats. *)
Definition nan_ratio : @callable2 (list Z) znan string :=
  λ _ a b, inr (if decide (row_sum b = 0%Z) then NaN
                else Num (row_sum a / row_sum b)).

(** Collaborators whose validation refuses a negative count. *)
Definition checking_externals : @externals (list Z) Z string :=
  {| _validate_counts_matrix :=
       λ counts _,
         if forallb (forallb (Z.leb 0)) counts then inr counts
         else inl (ValueError "Counts vector cannot contain negative values.");
     skbio_diversity_alpha := skbio_diversity_alpha easy_externals;
     _setup_faith_pd := _setup_faith_pd easy_externals;
     _faith_pd := _faith_pd easy_externals;
     _setup_multiple_unweighted_unifrac :=
       _setup_multiple_unweighted_unifrac easy_externals;
     _setup_multiple_weighted_unifrac :=
       _setup_multiple_weighted_unifrac easy_externals;
     _normalize_weighted_unifrac_by_default := "False";
     scipy_metric := scipy_metric easy_externals |}.

Definition counts_negative : list (list Z) := [[1; -3]; [1; 1]; [0; 1]]%Z.

(** * Properties *)

(** ** Sets of pairs and their sizes *)

Section set_sizes.
Context `{Countable A}.

Lemma size_list_to_set_le (l : list A) :
  size (list_to_set l : gset A) ≤ length l.
Proof.
  induction l as [|x l IH].
  - by rewrite list_to_set_nil, size_empty.
  - rewrite list_to_set_cons, length_cons.
    etrans; [apply Nat.eq_le_incl, size_union_alt|].
    rewrite size_singleton.
    pose proof (subseteq_size (list_to_set l ∖ {[x]}) (list_to_set l : gset A)
                  (subseteq_difference_l _ _ _ (reflexivity _))).
    lia.
Qed.

Lemma size_list_to_set_NoDup (l : list A) :
  size (list_to_set l : gset A) = length l → NoDup l.
Proof.
  induction l as [|x l IH]; intros Hsize.
  - constructor.
  - rewrite list_to_set_cons, length_cons in Hsize.
    destruct (decide (x ∈ l)) as [Hin|Hnotin].
    + rewrite (subseteq_union_1_L {[x]} (list_to_set l : gset A)) in Hsize.
      * pose proof (size_list_to_set_le l). lia.
      * apply singleton_subseteq_l, elem_of_list_to_set, Hin.
    + rewrite size_union in Hsize.
      2: { apply disjoint_singleton_l. by rewrite elem_of_list_to_set. }
      rewrite size_singleton in Hsize.
      constructor; [done|]. apply IH. lia.
Qed.

Lemma size_list_to_set_iff (l : list A) :
  size (list_to_set l : gset A) = length l ↔ NoDup l.
Proof.
  split; [apply size_list_to_set_NoDup|].
  intros. by apply size_list_to_set.
Qed.

End set_sizes.

Lemma reversed_involutive p : reversed (reversed p) = p.
Proof. by destruct p. Qed.

(** The duplicate check of line 226 passes exactly when the pairs followed
    by their reverses hold no value twice. *)
Lemma hashes_size_iff (id_pairs : list (string * string)) :
  size (hashes id_pairs) = length id_pairs * 2 ↔
  NoDup (id_pairs ++ (reversed <$> id_pairs)).
Proof.
  unfold hashes. rewrite <- list_to_set_app_L.
  rewrite <- size_list_to_set_iff.
  rewrite length_app, length_fmap.
  split; lia.
Qed.

Lemma repeats_a_pair_not_NoDup id_pairs :
  repeats_a_pair id_pairs → ¬ NoDup (id_pairs ++ (reversed <$> id_pairs)).
Proof.
  intros (i & j & p & q & Hij & Hi & Hj & Hpq) Hnd.
  apply NoDup_app in Hnd as (Hnd & Hdisj & _).
  destruct Hpq as [->| ->].
  - apply Hij. eapply NoDup_lookup; eauto.
  - apply (Hdisj (reversed q)).
    + eapply list_elem_of_lookup_2; eauto.
    + apply list_elem_of_fmap. exists q. split; [done|].
      eapply list_elem_of_lookup_2; eauto.
Qed.

Lemma self_pair_not_NoDup id_pairs a :
  (a, a) ∈ id_pairs → ¬ NoDup (id_pairs ++ (reversed <$> id_pairs)).
Proof.
  intros Hin Hnd.
  apply NoDup_app in Hnd as (_ & Hdisj & _).
  apply (Hdisj (a, a)); [done|].
  apply list_elem_of_fmap. by exists (a, a).
Qed.

Section partial_pw_checks.
Context {Row D V : Type} `{!Scalar D}.
Implicit Types (counts : list Row) (kwargs : gmap string V).
Implicit Types (id_pairs : list (string * string)).
Implicit Types (metric : @beta_metric Row D V).

(** Whenever the duplicate check fails, [_partial_pw] raises an input
    error and calls nothing. *)
Lemma partial_pw_size_mismatch ids id_pairs counts metric kwargs :
  size (hashes id_pairs) ≠ length id_pairs * 2 →
  ∃ msg, _partial_pw ids id_pairs counts metric kwargs = ([], inl (ValueError msg)) ∧
         ∀ l, ids = Some l →
              list_to_set (chain_from_iterable id_pairs) ⊆@{gset string} list_to_set l →
              msg = "Duplicate ID pairs observed.".
Proof.
  intros Hsize. unfold _partial_pw.
  destruct ids as [l|]; [|eexists; split; [done|]; by intros].
  case_bool_decide as Hsub; simpl.
  - apply Nat.eqb_neq in Hsize. rewrite Hsize. simpl.
    eexists; split; [done|]. by intros.
  - eexists; split; [done|]. intros ? [= <-] ?. done.
Qed.

(** C6. If [id_pairs] holds the same unordered pair at two places, in the
    same or in opposite orientation, then the set of the pairs and their
    reverses has not twice as many members as there are pairs, and
    [_partial_pw] raises an input error ([ValueError]) without calling the
    metric; when [ids] is given and covers the pairs, that error is
    "Duplicate ID pairs observed.". *)
Theorem partial_pw_duplicate_pair ids id_pairs counts metric kwargs :
  repeats_a_pair id_pairs →
  size (hashes id_pairs) ≠ length id_pairs * 2 ∧
  ∃ msg, _partial_pw ids id_pairs counts metric kwargs = ([], inl (ValueError msg)) ∧
         ∀ l, ids = Some l →
              list_to_set (chain_from_iterable id_pairs) ⊆@{gset string} list_to_set l →
              msg = "Duplicate ID pairs observed.".
Proof.
  intros Hrep.
  assert (size (hashes id_pairs) ≠ length id_pairs * 2) as Hsize.
  { rewrite hashes_size_iff. by apply repeats_a_pair_not_NoDup. }
  split; [done|]. by apply partial_pw_size_mismatch.
Qed.

(** C7. If [id_pairs] holds a self-pair [(a, a)], [_partial_pw] raises an
    input error ([ValueError]) and computes no distance: the metric is
    never called. *)
Theorem partial_pw_self_pair ids id_pairs counts metric kwargs a :
  (a, a) ∈ id_pairs →
  ∃ msg, _partial_pw ids id_pairs counts metric kwargs = ([], inl (ValueError msg)).
Proof.
  intros Hin.
  destruct (partial_pw_size_mismatch ids id_pairs counts metric kwargs)
    as (msg & Hrun & _).
  { rewrite hashes_size_iff. by eapply self_pair_not_NoDup. }
  by exists msg.
Qed.

(** C8. If [metric] is not callable (it is a name string), [_partial_pw]
    raises an input error ([ValueError]) before any pairwise computation:
    the call log is empty. When the checks on [ids] and [id_pairs] pass,
    the error is "`metric` must be callable". *)
Theorem partial_pw_metric_not_callable ids id_pairs counts metric kwargs :
  callable metric = false →
  ∃ msg, _partial_pw ids id_pairs counts metric kwargs = ([], inl (ValueError msg)) ∧
         ∀ l, ids = Some l → pairs_accepted l id_pairs →
              msg = "`metric` must be callable".
Proof.
  intros Hcallable. destruct metric as [name|f]; [|done].
  unfold _partial_pw. destruct ids as [l|]; [|eexists; split; [done|]; by intros].
  case_bool_decide as Hsub; simpl.
  - destruct (Nat.eqb_spec (size (hashes id_pairs)) (length id_pairs * 2))
      as [Hsize|Hsize]; simpl.
    + eexists; split; [done|]. by intros.
    + eexists; split; [done|]. intros ? [= <-] [_ ?]. done.
  - eexists; split; [done|]. intros ? [= <-] [? _]. done.
Qed.

End partial_pw_checks.

(** ** The identifier index of line 235 *)

Section id_index.

Lemma id_index_from_lookup (l : list string) k m u i :
  foldl id_index_step m (zip (seq k (length l)) l) !! u = Some i →
  (∃ j, i = k + j ∧ l !! j = Some u) ∨ m !! u = Some i.
Proof.
  revert k m. induction l as [|x l IH]; intros k m; simpl; [by right|].
  intros Hlook. apply IH in Hlook as [(j & -> & Hj)|Hm].
  - left. exists (S j). split; [lia|done].
  - destruct (decide (x = u)) as [->|Hne].
    + rewrite lookup_insert_eq in Hm. injection Hm as <-.
      left. exists 0. split; [lia|done].
    + rewrite lookup_insert_ne in Hm by done. by right.
Qed.

Lemma id_index_from_is_Some (l : list string) k m u :
  u ∈ l ∨ is_Some (m !! u) →
  is_Some (foldl id_index_step m (zip (seq k (length l)) l) !! u).
Proof.
  revert k m. induction l as [|x l IH]; intros k m; simpl.
  - intros [Hin|Hm]; [by apply elem_of_nil in Hin|done].
  - intros [Hin|Hm]; apply IH.
    + apply elem_of_cons in Hin as [->|Hin]; [right|by left].
      rewrite lookup_insert_eq. by eexists.
    + right. destruct (decide (x = u)) as [->|Hne].
      * rewrite lookup_insert_eq. by eexists.
      * by rewrite lookup_insert_ne.
Qed.

Lemma id_index_from_notin (l : list string) k m u :
  u ∉ l → foldl id_index_step m (zip (seq k (length l)) l) !! u = m !! u.
Proof.
  revert k m. induction l as [|x l IH]; intros k m Hnotin; simpl; [done|].
  apply not_elem_of_cons in Hnotin as [Hne Hnotin].
  rewrite IH by done. by rewrite lookup_insert_ne.
Qed.

Lemma id_index_from_NoDup (l : list string) k m j u :
  NoDup l → l !! j = Some u →
  foldl id_index_step m (zip (seq k (length l)) l) !! u = Some (k + j).
Proof.
  revert k m j. induction l as [|x l IH]; intros k m j Hnd Hj; [done|].
  apply NoDup_cons in Hnd as [Hnotin Hnd]. simpl.
  destruct j as [|j]; simpl in Hj.
  - injection Hj as ->. rewrite id_index_from_notin by done.
    rewrite lookup_insert_eq. f_equal. lia.
  - rewrite (IH _ _ j) by done. f_equal. lia.
Qed.

(** An index found for [u] is that of a row of [u]. *)
Lemma make_id_index_lookup ids u i :
  make_id_index ids !! u = Some i → ids !! i = Some u.
Proof.
  intros Hlook. apply id_index_from_lookup in Hlook as [(j & -> & Hj)|Hm].
  - done.
  - by rewrite lookup_empty in Hm.
Qed.

Lemma make_id_index_lt ids u i :
  make_id_index ids !! u = Some i → i < length ids.
Proof. intros Hlook. eapply lookup_lt_Some, make_id_index_lookup, Hlook. Qed.

Lemma make_id_index_is_Some ids u :
  u ∈ ids → is_Some (make_id_index ids !! u).
Proof. intros Hin. apply id_index_from_is_Some. by left. Qed.

(** With unique ids, the index of an id is its row. *)
Lemma make_id_index_NoDup ids i u :
  NoDup ids → ids !! i = Some u → make_id_index ids !! u = Some i.
Proof. intros Hnd Hi. by apply (id_index_from_NoDup ids 0 ∅ i u). Qed.

End id_index.

(** ** Dense arrays *)

Section arrays.
Context {D : Type} `{!Scalar D}.
Implicit Types (X : list (list D)).

Lemma zeros_square n : square n (zeros n).
Proof.
  unfold zeros. split; [by rewrite length_replicate|].
  apply Forall_replicate. by rewrite length_replicate.
Qed.

Lemma cell_zeros n i j : cell (zeros n) i j = dzero.
Proof.
  unfold cell, zeros.
  destruct (replicate n (replicate n dzero) !! i) as [row|] eqn:Hi; simpl; [|done].
  apply lookup_replicate in Hi as [-> _].
  destruct (replicate n dzero !! j) as [x|] eqn:Hj; simpl; [|done].
  by apply lookup_replicate in Hj as [-> _].
Qed.

Lemma square_lookup n X i :
  square n X → i < n → ∃ row, X !! i = Some row ∧ length row = n.
Proof.
  intros [Hlen Hrows] Hi.
  destruct (lookup_lt_is_Some_2 X i) as [row Hrow]; [lia|].
  exists row. split; [done|].
  by eapply (Forall_lookup_1 _ _ _ _ Hrows).
Qed.

(** An assignment inside the bounds succeeds, keeps the shape, sets its
    cell and leaves every other cell as it was. *)
Lemma setitem_spec n X u v x :
  square n X → u < n → v < n →
  ∃ X', setitem X u v x = inr X' ∧ square n X' ∧
        ∀ i j, cell X' i j = if decide (i = u ∧ j = v) then x else cell X i j.
Proof.
  intros Hsq Hu Hv.
  destruct (square_lookup n X u Hsq Hu) as (row & Hrow & Hlen).
  unfold setitem. rewrite Hrow.
  destruct (decide (v < length row)) as [_|]; [|lia].
  eexists. split; [done|]. destruct Hsq as [HlenX Hrows]. split.
  - split; [by rewrite length_insert|].
    apply Forall_insert; [done|]. by rewrite length_insert.
  - intros i j. unfold cell.
    destruct (decide (i = u)) as [->|Hiu].
    + rewrite list_lookup_insert_eq by lia. rewrite Hrow. simpl.
      destruct (decide (j = v)) as [->|Hjv].
      * rewrite list_lookup_insert_eq by lia.
        by rewrite decide_True.
      * rewrite list_lookup_insert_ne by done.
        rewrite decide_False by tauto. done.
    + rewrite list_lookup_insert_ne by done.
      rewrite decide_False by tauto. done.
Qed.

Lemma transpose_lookup n X j :
  square n X → j < n →
  transpose X !! j = Some ((λ row, default dzero (row !! j)) <$> X).
Proof.
  intros Hsq Hj. unfold transpose.
  assert (length (hd [] X) = n) as ->.
  { destruct (square_lookup n X 0 Hsq) as (row & Hrow & Hlen); [lia|].
    destruct X; simplify_eq/=. done. }
  rewrite list_lookup_fmap, lookup_seq_lt by done. done.
Qed.

Lemma cell_transpose n X i j :
  square n X → i < n → j < n → cell (transpose X) i j = cell X j i.
Proof.
  intros Hsq Hi Hj. unfold cell.
  rewrite (transpose_lookup n) by done. simpl.
  rewrite list_lookup_fmap.
  destruct (square_lookup n X j Hsq Hj) as (row & -> & Hlen). simpl.
  destruct (lookup_lt_is_Some_2 row i) as [x ->]; [lia|]. done.
Qed.

Lemma transpose_square n X : square n X → square n (transpose X).
Proof.
  intros Hsq. pose proof Hsq as [Hlen Hrows]. unfold transpose.
  destruct X as [|row X'].
  - simpl in *. subst n. split; [done|constructor].
  - assert (length (hd [] (row :: X')) = n) as ->.
    { simpl. by apply Forall_cons in Hrows as [? _]. }
    split; [by rewrite length_fmap, length_seq|].
    apply Forall_fmap, Forall_forall. intros j _. simpl.
    rewrite length_fmap. done.
Qed.

Lemma madd_square n X Y : square n X → square n Y → square n (madd X Y).
Proof.
  intros [HlenX HrowsX] [HlenY HrowsY]. unfold madd. split.
  - rewrite length_zip_with. lia.
  - apply Forall_forall. intros row Hin.
    apply elem_of_lookup_zip_with in Hin as (i & x & y & -> & Hx & Hy).
    rewrite length_zip_with.
    rewrite (Forall_lookup_1 _ _ _ _ HrowsX Hx).
    rewrite (Forall_lookup_1 _ _ _ _ HrowsY Hy). lia.
Qed.

Lemma cell_madd n X Y i j :
  square n X → square n Y → i < n → j < n →
  cell (madd X Y) i j = dadd (cell X i j) (cell Y i j).
Proof.
  intros HX HY Hi Hj. unfold cell, madd.
  rewrite lookup_zip_with.
  destruct (square_lookup n X i HX Hi) as (rx & -> & Hlx).
  destruct (square_lookup n Y i HY Hi) as (ry & -> & Hly). simpl.
  rewrite lookup_zip_with.
  destruct (lookup_lt_is_Some_2 rx j) as [x ->]; [lia|].
  destruct (lookup_lt_is_Some_2 ry j) as [y ->]; [lia|]. done.
Qed.

(** [dm + dm.T] holds at [(i, j)] the sum of the cells [(i, j)] and
    [(j, i)] of [dm]. *)
Lemma cell_madd_transpose n X i j :
  square n X → i < n → j < n →
  cell (madd X (transpose X)) i j = dadd (cell X i j) (cell X j i).
Proof.
  intros Hsq Hi Hj.
  rewrite (cell_madd n) by auto using transpose_square.
  by rewrite (cell_transpose n).
Qed.

Lemma elem_of_index_pairs n i j : (i, j) ∈ index_pairs n ↔ i < j < n.
Proof.
  unfold index_pairs. rewrite list_elem_of_bind. split.
  - intros (i' & Hin & Hi'). apply list_elem_of_fmap in Hin as (j' & [= -> ->] & Hj').
    apply elem_of_seq in Hj'. lia.
  - intros Hij. exists i. split.
    + apply list_elem_of_fmap. exists j. split; [done|]. apply elem_of_seq. lia.
    + apply elem_of_seq. lia.
Qed.

Lemma np_eq_refl (x : D) : is_nan x = false → np_eq x x = true.
Proof.
  intros Hx. unfold np_eq. rewrite Hx. simpl. by apply bool_decide_eq_true.
Qed.

Lemma np_eq_nan_l (x y : D) : is_nan x = true → np_eq x y = false.
Proof. intros Hx. unfold np_eq. by rewrite Hx. Qed.

(** [squareform] accepts [dm + dm.T] as soon as no sum of a cell and its
    mirror cell is NaN and the diagonal of [dm] is zero, and returns its
    upper triangle. *)
Lemma squareform_madd_transpose n X :
  square n X →
  (∀ i j, i < n → j < n → is_nan (dadd (cell X i j) (cell X j i)) = false) →
  (∀ i, i < n → cell X i i = dzero) →
  squareform (madd X (transpose X)) = inr (upper_triangle (madd X (transpose X))).
Proof.
  intros Hsq Hnan Hdiag.
  assert (square n (madd X (transpose X))) as HS
    by auto using madd_square, transpose_square.
  unfold squareform.
  assert (is_square (madd X (transpose X)) = true) as ->.
  { unfold is_square. apply forallb_forall. intros row Hin.
    apply list_elem_of_In in Hin. destruct HS as [HlenS HrowsS].
    rewrite HlenS. apply Nat.eqb_eq.
    by apply (proj1 (Forall_forall _ _) HrowsS). }
  assert (is_symmetric (madd X (transpose X)) = true) as ->.
  { unfold is_symmetric. destruct HS as [-> _].
    apply forallb_forall. intros i Hi. apply forallb_forall. intros j Hj.
    apply list_elem_of_In, elem_of_seq in Hi, Hj.
    rewrite !(cell_madd_transpose n) by (done || lia).
    rewrite (dadd_comm (cell X j i)). apply np_eq_refl, Hnan; lia. }
  assert (is_hollow (madd X (transpose X)) = true) as ->.
  { unfold is_hollow. destruct HS as [-> _].
    apply forallb_forall. intros i Hi.
    apply list_elem_of_In, elem_of_seq in Hi.
    rewrite (cell_madd_transpose n) by (done || lia).
    rewrite Hdiag by lia. rewrite dadd_0_l.
    apply np_eq_refl, dzero_not_nan. }
  done.
Qed.

(** ... and refuses it when some such sum is NaN. *)
Lemma squareform_madd_transpose_nan n X i j :
  square n X → i < n → j < n →
  is_nan (dadd (cell X i j) (cell X j i)) = true →
  squareform (madd X (transpose X))
    = inl (ValueError "Distance matrix 'X' must be symmetric.").
Proof.
  intros Hsq Hi Hj Hnan.
  assert (square n (madd X (transpose X))) as HS
    by auto using madd_square, transpose_square.
  unfold squareform.
  assert (is_square (madd X (transpose X)) = true) as ->.
  { unfold is_square. apply forallb_forall. intros row Hin.
    apply list_elem_of_In in Hin. destruct HS as [HlenS HrowsS].
    rewrite HlenS. apply Nat.eqb_eq.
    by apply (proj1 (Forall_forall _ _) HrowsS). }
  assert (is_symmetric (madd X (transpose X)) = false) as ->; [|done].
  destruct (is_symmetric _) eqn:Hsym; [|done]. exfalso.
  unfold is_symmetric in Hsym. destruct HS as [HlenS _]. rewrite HlenS in Hsym.
  pose proof (proj1 (forallb_forall _ _) Hsym i) as Hrow.
  rewrite <- list_elem_of_In, elem_of_seq in Hrow.
  specialize (Hrow ltac:(lia)).
  pose proof (proj1 (forallb_forall _ _) Hrow j) as Hcell.
  rewrite <- list_elem_of_In, elem_of_seq in Hcell.
  specialize (Hcell ltac:(lia)).
  rewrite (cell_madd_transpose n X i j) in Hcell by done.
  by rewrite np_eq_nan_l in Hcell.
Qed.

End arrays.

(** ** The loop of [_partial_pw] *)

Lemma cell_of_lt ids p i j : cell_of ids p i j → i < length ids ∧ j < length ids.
Proof. intros [Hi Hj]. split; eapply make_id_index_lt; eauto. Qed.

(** The cell names the pair: two pairs with the same cell are equal. *)
Lemma cell_of_inj ids p q i j : cell_of ids p i j → cell_of ids q i j → p = q.
Proof.
  intros [Hp1 Hp2] [Hq1 Hq2]. destruct p as [u v], q as [u' v']; simpl in *.
  apply make_id_index_lookup in Hp1, Hp2, Hq1, Hq2. congruence.
Qed.

Lemma cell_of_reversed ids p q i j :
  cell_of ids p i j → cell_of ids q j i → q = reversed p.
Proof.
  intros [Hp1 Hp2] [Hq1 Hq2]. destruct p as [u v], q as [u' v']; simpl in *.
  apply make_id_index_lookup in Hp1, Hp2, Hq1, Hq2.
  unfold reversed; simpl. congruence.
Qed.

Lemma elem_of_chain_from_iterable id_pairs u v :
  (u, v) ∈ id_pairs →
  u ∈ chain_from_iterable id_pairs ∧ v ∈ chain_from_iterable id_pairs.
Proof.
  intros Hin. unfold chain_from_iterable.
  split; apply list_elem_of_bind; exists (u, v); (split; [|done]); set_solver.
Qed.

Section fill.
Context {Row D V : Type} `{!Scalar D}.
Implicit Types (counts : list Row) (kwargs : gmap string V).
Implicit Types (id_pairs : list (string * string)) (dm : list (list D)).
Implicit Types (f : @callable2 Row D V).

(** Pairs that passed the checks stand for cells and rows. *)
Lemma accepted_resolves ids id_pairs counts :
  pairs_accepted ids id_pairs → length ids ≤ length counts →
  Forall (λ p, ∃ i j a b, resolves ids counts p i j a b) id_pairs.
Proof.
  intros [Hsub _] Hlen. apply Forall_forall. intros [u v] Hin.
  apply elem_of_chain_from_iterable in Hin as [Hu Hv].
  assert (u ∈ ids) as Hu'.
  { apply (elem_of_list_to_set (C:=gset string)), Hsub, elem_of_list_to_set, Hu. }
  assert (v ∈ ids) as Hv'.
  { apply (elem_of_list_to_set (C:=gset string)), Hsub, elem_of_list_to_set, Hv. }
  destruct (make_id_index_is_Some ids u Hu') as [i Hi].
  destruct (make_id_index_is_Some ids v Hv') as [j Hj].
  pose proof (make_id_index_lt _ _ _ Hi).
  pose proof (make_id_index_lt _ _ _ Hj).
  destruct (lookup_lt_is_Some_2 counts i) as [a Ha]; [lia|].
  destruct (lookup_lt_is_Some_2 counts j) as [b Hb]; [lia|].
  exists i, j, a, b. by repeat split.
Qed.

Lemma resolves_rows ids counts p q i j a b a' b' :
  resolves ids counts p i j a b → resolves ids counts q i j a' b' →
  a = a' ∧ b = b'.
Proof. intros (_ & Ha & Hb) (_ & Ha' & Hb'). split; congruence. Qed.

Lemma fill_step_ok ids counts f kwargs dm p i j a b x :
  square (length ids) dm → resolves ids counts p i j a b →
  f kwargs a b = inr x →
  ∃ dm', fill_step (make_id_index ids) counts f kwargs dm p
           = ([EvBetaMetric a b], inr dm') ∧
         square (length ids) dm' ∧
         ∀ i' j', cell dm' i' j' =
                  if decide (i' = i ∧ j' = j) then x else cell dm i' j'.
Proof.
  intros Hsq (Hcell & Ha & Hb) Hf.
  destruct (cell_of_lt _ _ _ _ Hcell) as [Hi Hj]. destruct Hcell as [Hu Hv].
  destruct (setitem_spec (length ids) dm i j x Hsq Hi Hj) as (dm' & Hset & Hsq' & Hcells).
  exists dm'. split; [|done].
  unfold fill_step, dict_getitem, getitem, call2, external, pure_step.
  rewrite Hu, Hv. cbn. rewrite Ha, Hb. cbn. rewrite Hf. cbn. by rewrite Hset.
Qed.

Lemma fill_loop ids counts f kwargs (g : Row → Row → D) :
  (∀ a b, f kwargs a b = inr (g a b)) →
  ∀ id_pairs dm,
    square (length ids) dm →
    Forall (λ p, ∃ i j a b, resolves ids counts p i j a b) id_pairs →
    ∃ dm' tr,
      for_each (fill_step (make_id_index ids) counts f kwargs) dm id_pairs
        = (tr, inr dm') ∧
      square (length ids) dm' ∧
      Forall2 (λ p ev, ∃ i j a b, resolves ids counts p i j a b ∧
                                  ev = EvBetaMetric a b) id_pairs tr ∧
      (∀ i j, (∀ p, p ∈ id_pairs → ¬ cell_of ids p i j) →
              cell dm' i j = cell dm i j) ∧
      (∀ p i j a b, p ∈ id_pairs → resolves ids counts p i j a b →
                    cell dm' i j = g a b).
Proof.
  intros Hf. induction id_pairs as [|p ps IH]; intros dm Hsq Hres.
  - exists dm, []. split; [done|split; [done|split; [constructor|split]]].
    + done.
    + intros ????? Hin. by apply elem_of_nil in Hin.
  - apply Forall_cons in Hres as [(i & j & a & b & Hp) Hres].
    destruct (fill_step_ok ids counts f kwargs dm p i j a b (g a b) Hsq Hp (Hf a b))
      as (dm1 & Hstep & Hsq1 & Hcells1).
    destruct (IH dm1 Hsq1 Hres) as (dm' & tr & Hloop & Hsq' & Hlog & Hkeep & Hset).
    exists dm', (EvBetaMetric a b :: tr). split; [|split; [done|split; [|split]]].
    + cbn [for_each]. rewrite Hstep. cbn. by rewrite Hloop.
    + constructor; [|done]. by exists i, j, a, b.
    + intros i' j' Hfree. rewrite Hkeep.
      * rewrite Hcells1. rewrite decide_False; [done|].
        intros [-> ->]. apply (Hfree p); [by left|]. apply Hp.
      * intros q Hq. apply Hfree. by right.
    + intros q i' j' a' b' Hq Hres'.
      destruct (decide (Exists (λ r, cell_of ids r i' j') ps)) as [Hex|Hnex].
      * apply Exists_exists in Hex as (r & Hr & Hcell).
        pose proof (proj1 (Forall_forall _ _) Hres r Hr) as (i2 & j2 & a2 & b2 & Hr').
        assert (r = q) as -> by (eapply cell_of_inj; [done|apply Hres']).
        by apply (Hset q).
      * apply elem_of_cons in Hq as [->|Hq].
        2: { exfalso. apply Hnex, Exists_exists. exists q. split; [done|apply Hres']. }
        rewrite Hkeep.
        2: { intros r Hr Hcell. apply Hnex, Exists_exists. by exists r. }
        destruct Hp as (Hcp & Ha & Hb), Hres' as ((Hi' & Hj') & Ha' & Hb').
        destruct Hcp as [Hi Hj].
        assert (i' = i) as -> by congruence. assert (j' = j) as -> by congruence.
        rewrite Hcells1, decide_True by done. congruence.
Qed.

End fill.

(** ** What [_partial_pw] returns *)

Section partial_pw_result.
Context {Row D V : Type} `{!Scalar D}.
Implicit Types (counts : list Row) (kwargs : gmap string V).
Implicit Types (id_pairs : list (string * string)) (dm : list (list D)).
Implicit Types (f : @callable2 Row D V).

Lemma squareform_inr (X : list (list D)) d :
  squareform X = inr d → d = upper_triangle X.
Proof.
  unfold squareform.
  destruct (negb (is_square X)); [done|].
  destruct (negb (is_symmetric X)); [done|].
  destruct (negb (is_hollow X)); [done|]. by intros [= <-].
Qed.

(** The loop on accepted pairs, whatever the values are. *)
Lemma fill_dm_run ids id_pairs counts f kwargs (g : Row → Row → D) :
  pairs_accepted ids id_pairs →
  length ids ≤ length counts →
  (∀ a b, f kwargs a b = inr (g a b)) →
  ∃ dm tr,
    fill_dm ids id_pairs counts f kwargs = (tr, inr dm) ∧
    square (length ids) dm ∧
    Forall2 (λ p ev, ∃ i j a b, resolves ids counts p i j a b ∧
                                ev = EvBetaMetric a b) id_pairs tr ∧
    (∀ p i j a b, p ∈ id_pairs → resolves ids counts p i j a b →
                  cell dm i j = g a b ∧ cell dm j i = dzero) ∧
    (∀ i j, (∀ p, p ∈ id_pairs → ¬ cell_of ids p i j) → cell dm i j = dzero) ∧
    (∀ i, cell dm i i = dzero) ∧
    _partial_pw (Some ids) id_pairs counts (BCallable f) kwargs
      = (tr, squareform (madd dm (transpose dm))).
Proof.
  intros Hacc Hlen Hf.
  pose proof (accepted_resolves ids id_pairs counts Hacc Hlen) as Hres.
  destruct Hacc as [Hsub Hsize].
  pose proof (proj1 (hashes_size_iff id_pairs) Hsize) as Hnd.
  apply NoDup_app in Hnd as (_ & Hdisj & _).
  destruct (fill_loop ids counts f kwargs g Hf id_pairs (zeros (length ids))
              (zeros_square _) Hres)
    as (dm & tr & Hloop & Hsq & Hlog & Hkeep & Hset).
  assert (∀ i j, (∀ p, p ∈ id_pairs → ¬ cell_of ids p i j) → cell dm i j = dzero)
    as Hzero.
  { intros i j Hfree. rewrite Hkeep by done. apply cell_zeros. }
  assert (∀ p i j, p ∈ id_pairs → cell_of ids p i j → cell dm j i = dzero)
    as Hmirror.
  { intros p i j Hp Hcell. apply Hzero. intros q Hq Hcellq.
    pose proof (cell_of_reversed _ _ _ _ _ Hcell Hcellq) as ->.
    apply (Hdisj (reversed p)); [done|].
    apply list_elem_of_fmap. by exists p. }
  exists dm, tr. split; [done|]. split; [done|]. split; [done|].
  split; [|split; [done|split]].
  - intros p i j a b Hp Hr. split; [by eapply Hset|].
    eapply Hmirror; [done|apply Hr].
  - intros i. apply Hzero. intros p Hp Hcell.
    pose proof (cell_of_reversed _ _ _ _ _ Hcell Hcell) as Hrev.
    apply (Hdisj p); [done|].
    apply list_elem_of_fmap. exists p. by split.
  - unfold _partial_pw.
    case_bool_decide; [|done]. simpl.
    rewrite (proj2 (Nat.eqb_eq _ _) Hsize). simpl.
    unfold fill_dm in Hloop. unfold fill_dm. rewrite Hloop. cbn.
    by rewrite app_nil_r.
Qed.

(** No sum of a cell and its mirror cell is NaN when no listed value is. *)
Lemma filled_sums_not_nan ids id_pairs counts (g : Row → Row → D) dm :
  Forall (λ p, ∃ i j a b, resolves ids counts p i j a b) id_pairs →
  listed_not_nan ids counts id_pairs g →
  (∀ p i j a b, p ∈ id_pairs → resolves ids counts p i j a b →
                cell dm i j = g a b ∧ cell dm j i = dzero) →
  (∀ i j, (∀ p, p ∈ id_pairs → ¬ cell_of ids p i j) → cell dm i j = dzero) →
  ∀ i j, is_nan (dadd (cell dm i j) (cell dm j i)) = false.
Proof.
  intros Hres Hnan Hset Hzero.
  assert (∀ i j, Exists (λ p, cell_of ids p i j) id_pairs →
                 is_nan (dadd (cell dm i j) (cell dm j i)) = false) as Hwritten.
  { intros i j Hex. apply Exists_exists in Hex as (p & Hp & Hcell).
    pose proof (proj1 (Forall_forall _ _) Hres p Hp)
      as (i' & j' & a & b & Hcell' & Ha & Hb).
    destruct Hcell as [Hi Hj], Hcell' as [Hi' Hj'].
    assert (i' = i) as -> by congruence. assert (j' = j) as -> by congruence.
    assert (resolves ids counts p i j a b) as Hr by (by repeat split).
    destruct (Hset p i j a b Hp Hr) as [-> ->].
    rewrite dadd_0_r. by eapply Hnan. }
  intros i j.
  destruct (decide (Exists (λ p, cell_of ids p i j) id_pairs)) as [Hex|Hnex];
    [by apply Hwritten|].
  destruct (decide (Exists (λ p, cell_of ids p j i) id_pairs)) as [Hex'|Hnex'].
  { rewrite dadd_comm. by apply Hwritten. }
  rewrite !Hzero.
  - rewrite dadd_0_l. apply dzero_not_nan.
  - intros p Hp Hcell. apply Hnex', Exists_exists. by exists p.
  - intros p Hp Hcell. apply Hnex, Exists_exists. by exists p.
Qed.

Lemma partial_pw_run ids id_pairs counts f kwargs (g : Row → Row → D) :
  pairs_accepted ids id_pairs →
  length ids ≤ length counts →
  (∀ a b, f kwargs a b = inr (g a b)) →
  listed_not_nan ids counts id_pairs g →
  ∃ dm tr,
    fill_dm ids id_pairs counts f kwargs = (tr, inr dm) ∧
    square (length ids) dm ∧
    Forall2 (λ p ev, ∃ i j a b, resolves ids counts p i j a b ∧
                                ev = EvBetaMetric a b) id_pairs tr ∧
    (∀ p i j a b, p ∈ id_pairs → resolves ids counts p i j a b →
                  cell dm i j = g a b ∧ cell dm j i = dzero) ∧
    (∀ i j, (∀ p, p ∈ id_pairs → ¬ cell_of ids p i j) → cell dm i j = dzero) ∧
    (∀ i j, is_nan (dadd (cell dm i j) (cell dm j i)) = false) ∧
    _partial_pw (Some ids) id_pairs counts (BCallable f) kwargs
      = (tr, inr (upper_triangle (madd dm (transpose dm)))).
Proof.
  intros Hacc Hlen Hf Hnan.
  pose proof (accepted_resolves ids id_pairs counts Hacc Hlen) as Hres.
  destruct (fill_dm_run ids id_pairs counts f kwargs g Hacc Hlen Hf)
    as (dm & tr & Hfill & Hsq & Hlog & Hset & Hzero & Hdiag & Hrun).
  pose proof (filled_sums_not_nan ids id_pairs counts g dm Hres Hnan Hset Hzero)
    as Hsums.
  exists dm, tr. repeat (split; [done|]).
  rewrite Hrun. f_equal.
  apply (squareform_madd_transpose (length ids)); auto.
Qed.

(** C2 (amended). When the checks pass, every id has a row and the metric
    returns a value, the loop calls the metric once per pair, in the given
    order, on the two rows of the pair; it writes the value into the cell
    [(u, v)] of a zero-initialised square matrix and leaves the mirror cell
    [(v, u)] and every cell of an unlisted pair at 0. When no listed value
    is NaN, [_partial_pw] returns the upper triangle of the matrix plus
    its transpose; and whenever it returns, that is what it returns. *)
Theorem partial_pw_writes_one_cell ids id_pairs counts f kwargs (g : Row → Row → D) :
  pairs_accepted ids id_pairs →
  length ids ≤ length counts →
  (∀ a b, f kwargs a b = inr (g a b)) →
  ∃ dm tr,
    fill_dm ids id_pairs counts f kwargs = (tr, inr dm) ∧
    square (length ids) dm ∧
    Forall2 (λ p ev, ∃ i j a b, resolves ids counts p i j a b ∧
                                ev = EvBetaMetric a b) id_pairs tr ∧
    (∀ p i j a b, p ∈ id_pairs → resolves ids counts p i j a b →
                  cell dm i j = g a b ∧ cell dm j i = dzero) ∧
    (∀ i j, (∀ p, p ∈ id_pairs → ¬ cell_of ids p i j) → cell dm i j = dzero) ∧
    (listed_not_nan ids counts id_pairs g →
     _partial_pw (Some ids) id_pairs counts (BCallable f) kwargs
       = (tr, inr (upper_triangle (madd dm (transpose dm))))) ∧
    (∀ t d,
       _partial_pw (Some ids) id_pairs counts (BCallable f) kwargs = (t, inr d) →
       t = tr ∧ d = upper_triangle (madd dm (transpose dm))).
Proof.
  intros Hacc Hlen Hf.
  pose proof (accepted_resolves ids id_pairs counts Hacc Hlen) as Hres.
  destruct (fill_dm_run ids id_pairs counts f kwargs g Hacc Hlen Hf)
    as (dm & tr & Hfill & Hsq & Hlog & Hset & Hzero & Hdiag & Hrun).
  exists dm, tr. repeat (split; [done|]). split.
  - intros Hnan. rewrite Hrun. f_equal.
    apply (squareform_madd_transpose (length ids)); auto.
    intros i j _ _.
    by apply (filled_sums_not_nan ids id_pairs counts g dm).
  - intros t d. rewrite Hrun. intros [= <- Hsf].
    split; [done|]. by apply squareform_inr.
Qed.

End partial_pw_result.

Lemma row_total_value kwargs a b :
  row_total kwargs a b = inr (row_sum a + row_sum b)%Z.
Proof. done. Qed.

Lemma row_difference_value kwargs a b :
  row_difference kwargs a b = inr (row_sum a - row_sum b)%Z.
Proof. done. Qed.

Lemma partial_pw_writes_one_cell_witness :
  ∃ dm tr,
    fill_dm ids3 [("s1", "s2")] counts3 row_total (∅ : gmap string string)
      = (tr, inr dm) ∧
    square (length ids3) dm ∧
    Forall2 (λ p ev, ∃ i j a b, resolves ids3 counts3 p i j a b ∧
                                ev = EvBetaMetric a b) [("s1", "s2")] tr ∧
    (∀ p i j a b, p ∈ [("s1", "s2")] → resolves ids3 counts3 p i j a b →
                  cell dm i j = (row_sum a + row_sum b)%Z ∧ cell dm j i = dzero) ∧
    (∀ i j, (∀ p, p ∈ [("s1", "s2")] → ¬ cell_of ids3 p i j) → cell dm i j = dzero) ∧
    (listed_not_nan ids3 counts3 [("s1", "s2")]
                    (λ a b, (row_sum a + row_sum b)%Z) →
     _partial_pw (Some ids3) [("s1", "s2")] counts3 (BCallable row_total) ∅
       = (tr, inr (upper_triangle (madd dm (transpose dm))))) ∧
    (∀ t d,
       _partial_pw (Some ids3) [("s1", "s2")] counts3 (BCallable row_total) ∅
         = (t, inr d) →
       t = tr ∧ d = upper_triangle (madd dm (transpose dm))).
Proof.
  apply (partial_pw_writes_one_cell ids3 [("s1", "s2")] counts3 row_total ∅
           (λ a b, (row_sum a + row_sum b)%Z)).
  - split.
    + apply (bool_decide_unpack _). by vm_compute.
    + by vm_compute.
  - simpl. lia.
  - apply row_total_value.
Defined.

(** C2, as stated, fails: after the loop the cell [(v, u)] is still 0, not
    the metric value; and writing both cells before adding the transpose
    would return twice the value that [_partial_pw] returns. *)
Lemma partial_pw_mirror_cell_not_written :
  fill_dm ["a"; "b"] [("a", "b")] [[1]; [3]]%Z row_total (∅ : gmap string string)
    = ([EvBetaMetric [1%Z] [3%Z]], inr [[0; 4]; [0; 0]]%Z) ∧
  cell [[0; 4]; [0; 0]]%Z 1 0 ≠ 4%Z ∧
  outcome (_partial_pw (Some ["a"; "b"]) [("a", "b")] [[1]; [3]]%Z
                       (BCallable row_total) (∅ : gmap string string))
    = inr [4%Z] ∧
  outcome (fold_as_described ["a"; "b"] [("a", "b")] [[1]; [3]]%Z
                             row_total (∅ : gmap string string))
    = inr [8%Z].
Proof. repeat split; by vm_compute. Qed.

(** ** The full pair set *)

Section combinations.
Context {A : Type}.
Implicit Types (l : list A).

Lemma elem_of_combinations2 l a b :
  (a, b) ∈ combinations2 l ↔
  ∃ i j, i < j ∧ l !! i = Some a ∧ l !! j = Some b.
Proof.
  induction l as [|x l IH]; simpl.
  - split; [by intros ?%elem_of_nil|]. by intros (i & j & _ & ? & _).
  - rewrite elem_of_app, list_elem_of_fmap, IH. split.
    + intros [(y & [= -> ->] & Hy)|(i & j & Hij & Hi & Hj)].
      * apply list_elem_of_lookup in Hy as [k Hk].
        exists 0, (S k). split; [lia|done].
      * exists (S i), (S j). split; [lia|done].
    + intros (i & j & Hij & Hi & Hj). destruct j as [|j]; [lia|].
      destruct i as [|i]; simpl in *.
      * left. exists b. split; [congruence|].
        by eapply list_elem_of_lookup_2.
      * right. exists i, j. split; [lia|done].
Qed.

Lemma NoDup_combinations2 l : NoDup l → NoDup (combinations2 l).
Proof.
  induction 1 as [|x l Hnotin Hnd IH]; simpl; [constructor|].
  apply NoDup_app. split; [|split; [|done]].
  - apply NoDup_fmap_2; [|done]. intros ??; congruence.
  - intros [a b] Hin Hin'.
    apply list_elem_of_fmap in Hin as (y & [= -> ->] & _).
    apply elem_of_combinations2 in Hin' as (i & j & _ & Hi & _).
    apply Hnotin. by eapply list_elem_of_lookup_2.
Qed.

End combinations.

Lemma NoDup_combinations2_reversed (ids : list string) :
  NoDup ids →
  NoDup (combinations2 ids ++ (reversed <$> combinations2 ids)).
Proof.
  intros Hnd. apply NoDup_app. split; [|split].
  - by apply NoDup_combinations2.
  - intros [a b] Hin Hin'.
    apply list_elem_of_fmap in Hin' as ([c d] & [= -> ->] & Hin').
    apply elem_of_combinations2 in Hin as (i & j & Hij & Hi & Hj).
    apply elem_of_combinations2 in Hin' as (i' & j' & Hij' & Hi' & Hj').
    pose proof (NoDup_lookup _ _ _ _ Hnd Hi Hj').
    pose proof (NoDup_lookup _ _ _ _ Hnd Hj Hi'). lia.
  - apply NoDup_fmap_2; [apply _|]. by apply NoDup_combinations2.
Qed.

Lemma same_unordered_with_reverses l c :
  Forall2 same_unordered l c →
  l ++ (reversed <$> l) ≡ₚ c ++ (reversed <$> c).
Proof.
  induction 1 as [|p q l c Hpq _ IH]; [done|].
  rewrite !fmap_cons, <- !app_comm_cons.
  rewrite <- !Permutation_middle, IH.
  destruct Hpq as [->| ->]; [done|].
  rewrite reversed_involutive. apply perm_swap.
Qed.

Lemma full_pair_set_NoDup ids id_pairs :
  NoDup ids → full_pair_set ids id_pairs →
  NoDup (id_pairs ++ (reversed <$> id_pairs)).
Proof.
  intros Hnd (l & Hperm & Hsame).
  rewrite Hperm, (same_unordered_with_reverses _ _ Hsame).
  by apply NoDup_combinations2_reversed.
Qed.

(** Every pair of rows is listed, in one orientation or the other. *)
Lemma full_pair_set_covers ids id_pairs i j a b :
  full_pair_set ids id_pairs →
  i < j → ids !! i = Some a → ids !! j = Some b →
  (a, b) ∈ id_pairs ∨ (b, a) ∈ id_pairs.
Proof.
  intros (l & Hperm & Hsame) Hij Hi Hj.
  assert ((a, b) ∈ combinations2 ids) as Hin
    by (apply elem_of_combinations2; eauto).
  apply list_elem_of_lookup in Hin as [k Hk].
  destruct (Forall2_lookup_r _ _ _ _ _ Hsame Hk) as (p & Hp & Hpq).
  apply list_elem_of_lookup_2 in Hp. rewrite <- Hperm in Hp.
  destruct Hpq as [->| ->]; [by left|by right].
Qed.

Lemma full_pair_set_members ids id_pairs u v :
  full_pair_set ids id_pairs → (u, v) ∈ id_pairs → u ∈ ids ∧ v ∈ ids.
Proof.
  intros (l & Hperm & Hsame) Hin. rewrite Hperm in Hin.
  apply list_elem_of_lookup in Hin as [k Hk].
  destruct (Forall2_lookup_l _ _ _ _ _ Hsame Hk) as ([a b] & Hq & Hpq).
  apply list_elem_of_lookup_2 in Hq.
  apply elem_of_combinations2 in Hq as (i & j & _ & Hi & Hj).
  apply list_elem_of_lookup_2 in Hi, Hj.
  destruct Hpq as [Heq|Heq]; unfold reversed in Heq; simpl in Heq;
    injection Heq as -> ->; done.
Qed.

Lemma full_pair_set_accepted ids id_pairs :
  NoDup ids → full_pair_set ids id_pairs → pairs_accepted ids id_pairs.
Proof.
  intros Hnd Hfull. split.
  - intros u Hu. apply elem_of_list_to_set in Hu.
    apply elem_of_list_to_set.
    unfold chain_from_iterable in Hu.
    apply list_elem_of_bind in Hu as ([a b] & Hu & Hin).
    destruct (full_pair_set_members _ _ _ _ Hfull Hin) as [Ha Hb].
    apply elem_of_cons in Hu as [->|Hu]; [done|].
    apply elem_of_cons in Hu as [->|Hu]; [done|].
    by apply elem_of_nil in Hu.
  - apply hashes_size_iff. by apply (full_pair_set_NoDup ids).
Qed.

(** ** Restricted against all-pairs computation *)

Section agreement.
Context {Row D V : Type} `{!Scalar D}.
Implicit Types (counts : list Row) (kwargs : gmap string V).
Implicit Types (id_pairs : list (string * string)).
Implicit Types (f : @callable2 Row D V).

Lemma mapM_values {A B} (h : A → @M Row B) (val : A → B) (l : list A) :
  Forall (λ x, ∃ t, h x = (t, inr (val x))) l →
  ∃ t, mapM h l = (t, inr (val <$> l)).
Proof.
  induction 1 as [|x l [t Hx] _ [t' IH]]; [by exists []|].
  exists (t ++ (t' ++ [])). cbn. rewrite Hx. cbn. by rewrite IH.
Qed.

Lemma pdist_with_values f counts kwargs (val : nat * nat → D) :
  (∀ i j a b, i < j → counts !! i = Some a → counts !! j = Some b →
              f kwargs a b = inr (val (i, j))) →
  ∃ t, pdist_with f counts kwargs = (t, inr (val <$> index_pairs (length counts))).
Proof.
  intros Hval. apply mapM_values, Forall_forall. intros [i j] Hin.
  apply elem_of_index_pairs in Hin as [Hij Hj].
  destruct (lookup_lt_is_Some_2 counts i) as [a Ha]; [lia|].
  destruct (lookup_lt_is_Some_2 counts j) as [b Hb]; [lia|].
  exists [EvBetaMetric a b].
  unfold getitem, pure_step, call2, external. rewrite Ha, Hb. cbn.
  by rewrite (Hval i j a b).
Qed.

Lemma partial_pw_full ids id_pairs counts f kwargs (g : Row → Row → D) :
  NoDup ids →
  length counts = length ids →
  full_pair_set ids id_pairs →
  (∀ a b, f kwargs a b = inr (g a b)) →
  listed_not_nan ids counts id_pairs g →
  (∀ p i j a b, p ∈ id_pairs → resolves ids counts p i j a b → j < i →
                g a b = g b a) →
  ∃ d t t',
    _partial_pw (Some ids) id_pairs counts (BCallable f) kwargs = (t, inr d) ∧
    pdist_with f counts kwargs = (t', inr d).
Proof.
  intros Hnd Hlen Hfull Hf Hnan Hsym.
  pose proof (full_pair_set_accepted _ _ Hnd Hfull) as Hacc.
  destruct (partial_pw_run ids id_pairs counts f kwargs g Hacc) as
    (dm & tr & _ & Hsq & _ & Hset & _ & _ & Hrun); [lia|done|done|].
  set (S := madd dm (transpose dm)) in *.
  destruct (pdist_with_values f counts kwargs (λ '(i, j), cell S i j)) as [t' Hpd].
  { intros i j a b Hij Ha Hb. rewrite Hf. f_equal.
    pose proof (lookup_lt_Some _ _ _ Hb) as Hj. rewrite Hlen in Hj.
    destruct (lookup_lt_is_Some_2 ids i) as [u Hu]; [lia|].
    destruct (lookup_lt_is_Some_2 ids j) as [v Hv]; [lia|].
    pose proof (make_id_index_NoDup _ _ _ Hnd Hu) as Hiu.
    pose proof (make_id_index_NoDup _ _ _ Hnd Hv) as Hiv.
    subst S. rewrite (cell_madd_transpose (length ids)) by (done || lia).
    destruct (full_pair_set_covers _ _ _ _ _ _ Hfull Hij Hu Hv) as [Hin|Hin].
    - destruct (Hset (u, v) i j a b Hin) as [-> ->]; [by repeat split|].
      by rewrite dadd_0_r.
    - assert (resolves ids counts (v, u) j i b a) as Hres by (by repeat split).
      destruct (Hset (v, u) j i b a Hin Hres) as [-> ->].
      rewrite dadd_0_l. symmetry. by eapply Hsym. }
  exists (upper_triangle S), tr, t'. split; [done|].
  rewrite Hpd. unfold upper_triangle. subst S.
  destruct (madd_square _ _ _ Hsq (transpose_square _ _ Hsq)) as [-> _].
  by rewrite Hlen.
Qed.

End agreement.

Section agreement_claim.
Context {Row D V : Type} `{!Scalar D}.

(** C1 (amended). Let [ids] be unique with one row of [counts] each, let
    [id_pairs] be the full set of unordered pairs over [ids] (each pair
    once, in any order and either orientation), and let the callable metric
    return a value, not NaN on the listed pairs and the same in both
    argument orders on every pair that is listed against row order (so:
    any symmetric metric, or any metric when the pairs are listed in row
    order). Then [_partial_pw] and the default all-pairs backend return
    the same condensed vector. *)
Theorem partial_pw_agrees_with_pdist (E : @externals Row D V)
    (ids : list string) (id_pairs : list (string * string))
    (counts : list Row) (f : @callable2 Row D V) (kwargs : gmap string V)
    (g : Row → Row → D) :
  NoDup ids →
  length counts = length ids →
  full_pair_set ids id_pairs →
  (∀ a b, f kwargs a b = inr (g a b)) →
  listed_not_nan ids counts id_pairs g →
  (∀ p i j a b, p ∈ id_pairs → resolves ids counts p i j a b → j < i →
                g a b = g b a) →
  ∃ d,
    outcome (_partial_pw (Some ids) id_pairs counts (BCallable f) kwargs) = inr d ∧
    outcome (pdist E counts (BCallable f) kwargs) = inr d.
Proof.
  intros Hnd Hlen Hfull Hf Hnan Hsym.
  destruct (partial_pw_full ids id_pairs counts f kwargs g Hnd Hlen Hfull Hf
              Hnan Hsym)
    as (d & t & t' & Hpw & Hpd).
  exists d. unfold pdist. by rewrite Hpw, Hpd.
Qed.

End agreement_claim.

Lemma partial_pw_agrees_with_pdist_witness :
  ∃ d,
    outcome (_partial_pw (Some ids3) [("s1", "s3"); ("s2", "s1"); ("s3", "s2")]
                         counts3 (BCallable row_total) (∅ : gmap string string))
      = inr d ∧
    outcome (pdist easy_externals counts3 (BCallable row_total) ∅) = inr d.
Proof.
  apply (partial_pw_agrees_with_pdist easy_externals ids3
           [("s1", "s3"); ("s2", "s1"); ("s3", "s2")] counts3 row_total ∅
           (λ a b, (row_sum a + row_sum b)%Z)).
  - apply (bool_decide_unpack _). by vm_compute.
  - reflexivity.
  - exists [("s2", "s1"); ("s1", "s3"); ("s3", "s2")]. split.
    + apply perm_swap.
    + constructor; [by right|].
      constructor; [by left|].
      constructor; [by right|]. constructor.
  - reflexivity.
  - intros p i j a b _ _. reflexivity.
  - intros. lia.
Defined.

(** C1, as stated, fails: the one unordered pair over two ids, written
    [("b", "a")], with a callable that is not symmetric. [_partial_pw]
    calls the metric on (row of b, row of a), the all-pairs backend on
    (row 0, row 1). *)
Lemma partial_pw_differs_from_pdist_on_reversed_pair :
  NoDup ["a"; "b"] ∧
  full_pair_set ["a"; "b"] [("b", "a")] ∧
  outcome (_partial_pw (Some ["a"; "b"]) [("b", "a")] [[1]; [3]]%Z
                       (BCallable row_difference) (∅ : gmap string string))
    = inr [2%Z] ∧
  outcome (pdist easy_externals [[1]; [3]]%Z (BCallable row_difference) ∅)
    = inr [(-2)%Z].
Proof.
  split; [apply (bool_decide_unpack _); by vm_compute|].
  split; [|split; by vm_compute].
  exists [("b", "a")]. split; [done|].
  constructor; [by right|]. constructor.
Qed.

(** ** Laws of the computations *)

Section monad_laws.
Context {Row : Type}.

Lemma bind_assoc {A B C} (m : @M Row A) (f : A → @M Row B) (g : B → @M Row C) :
  (m ≫= f) ≫= g = m ≫= (λ x, f x ≫= g).
Proof.
  destruct m as [t [e|x]]; cbn; [done|].
  destruct (f x) as [t' [e'|y]]; cbn; [done|].
  destruct (g y) as [t'' r]. by rewrite app_assoc.
Qed.

Lemma bind_ret_l {A B} (x : A) (k : A → @M Row B) : mret x ≫= k = k x.
Proof. cbn. by destruct (k x). Qed.

(** A continuation that raises at once adds nothing to the log. *)
Lemma bind_raise {A B} (m : @M Row A) (k : A → @M Row B) e :
  (∀ x, k x = raise e) →
  m ≫= k = (trace m, inl (match outcome m with inl e' => e' | inr _ => e end)).
Proof.
  intros Hk. destruct m as [t [e'|x]]; cbn; [done|].
  rewrite Hk. cbn. by rewrite app_nil_r.
Qed.

(** A sequence that returns has returned at each step. *)
Lemma bind_inr {A B} (m : @M Row A) (k : A → @M Row B) t y :
  m ≫= k = (t, inr y) →
  ∃ t1 x t2, m = (t1, inr x) ∧ k x = (t2, inr y) ∧ t = t1 ++ t2.
Proof.
  destruct m as [t1 [e|x]]; cbn; [done|].
  destruct (k x) as [t2 r] eqn:Hk. intros [= <- ->].
  by exists t1, x, t2.
Qed.

Lemma mapM_length {A B} (h : A → @M Row B) (l : list A) t r :
  mapM h l = (t, inr r) → length r = length l.
Proof.
  revert t r. induction l as [|x l IH]; intros t r; cbn.
  - by intros [= _ <-].
  - destruct (h x) as [t1 [e|y]]; cbn; [done|].
    destruct (mapM h l) as [t2 [e|ys]] eqn:Hrest; cbn; [done|].
    intros [= _ <-]. simpl. f_equal. by eapply IH.
Qed.

End monad_laws.

(** ** The alpha engine *)

Section alpha.
Context {Row D V : Type} `{!Scalar D} (E : @externals Row D V).
Implicit Types (counts : list Row) (kwargs : gmap string V).
Implicit Types (ids : option (list string)).

Lemma alpha_metric_eq_name name other :
  name ≠ other → alpha_metric_eq (@AName Row D V name) other = false.
Proof. intros Hne. simpl. by apply bool_decide_eq_false. Qed.

Lemma alpha_metric_eq_same name :
  alpha_metric_eq (@AName Row D V name) name = true.
Proof. simpl. by apply bool_decide_eq_true. Qed.

(** The list comprehension of line 181 when the metric returns a value on
    every row. *)
Lemma alpha_results (f : @callable1 Row D V) (bound kwargs : gmap string V)
    (g : Row → D) counts :
  (∀ c, c ∈ counts → f (kwargs ∪ bound) c = inr (g c)) →
  mapM (call1 (partial1 f bound) kwargs) counts
    = (EvAlphaMetric <$> counts, inr (g <$> counts)).
Proof.
  induction counts as [|c counts IH]; intros Hg; [done|].
  cbn. unfold partial1 at 1. rewrite Hg by (by left). cbn.
  rewrite IH by (intros; apply Hg; by right). cbn.
  by rewrite app_nil_r.
Qed.

Lemma pd_Series_aligned (results : list D) ids n :
  length results = n → (∀ l, ids = Some l → length l = n) →
  pd_Series results ids
    = inr {| values := results;
             index := match ids with
                      | Some l => LStr <$> l
                      | None => LInt <$> seq 0 n
                      end |}.
Proof.
  intros Hn Hids. unfold pd_Series. destruct ids as [l|]; [|by rewrite Hn].
  rewrite decide_True; [done|]. rewrite Hn. by apply Hids.
Qed.

(** C4 (amended). For a registry name other than 'faith_pd', a valid
    matrix (one that validation returns as it is) and aligned ids, when
    the registered function returns a value on every row,
    [alpha_diversity] calls it on each row in row order and returns one
    value per row, in that order, indexed by [ids], or by the integers
    [range(n)] when [ids] is absent. For 'faith_pd', which is also in the
    registry, the same holds over the rows of the node-level matrix,
    provided the [otu_ids] and [tree] keywords are given and the setup
    succeeds. *)
Theorem alpha_diversity_registry_metric
    name (f : @callable1 Row D V) (g : Row → D) counts ids validate kwargs
    otu_ids tree counts_by_node branch_lengths :
  (validate = true → _validate_counts_matrix E counts ids = inr counts) →
  (name ≠ "faith_pd" →
   _get_alpha_diversity_metric_map E !! name = Some f →
   (∀ c, c ∈ counts → f kwargs c = inr (g c)) →
   (∀ l, ids = Some l → length l = length counts) →
   alpha_diversity E (AName name) counts ids validate kwargs
     = ((if validate then [EvValidate] else []) ++ (EvAlphaMetric <$> counts),
        inr {| values := g <$> counts;
               index := match ids with
                        | Some l => LStr <$> l
                        | None => LInt <$> seq 0 (length counts)
                        end |})) ∧
  (name = "faith_pd" →
   kwargs !! "otu_ids" = Some otu_ids → kwargs !! "tree" = Some tree →
   _setup_faith_pd E counts otu_ids tree validate
     = inr (counts_by_node, branch_lengths) →
   (∀ c, c ∈ counts_by_node →
         _faith_pd E (delete "tree" (delete "otu_ids" kwargs)
                        ∪ {["branch_lengths" := branch_lengths]}) c
         = inr (g c)) →
   (∀ l, ids = Some l → length l = length counts_by_node) →
   alpha_diversity E (AName name) counts ids validate kwargs
     = ((if validate then [EvValidate] else []) ++
          [EvPhylogeneticKwargs; EvTreeSetup "_setup_faith_pd"] ++
          (EvAlphaMetric <$> counts_by_node),
        inr {| values := g <$> counts_by_node;
               index := match ids with
                        | Some l => LStr <$> l
                        | None => LInt <$> seq 0 (length counts_by_node)
                        end |})).
Proof.
  intros Hvalid. split.
  - intros Hname Hreg Hg Hids. unfold alpha_diversity.
    rewrite alpha_metric_eq_name by done. rewrite Hreg.
    assert ((if validate
             then external EvValidate (_validate_counts_matrix E counts ids)
             else mret counts)
            = (if validate then [EvValidate] else [], inr counts)) as ->.
    { destruct validate; [|done]. by rewrite Hvalid. }
    cbn. rewrite (alpha_results f kwargs kwargs g counts).
    2: { intros c Hc. rewrite (idemp (∪) kwargs). by apply Hg. }
    cbn. rewrite (pd_Series_aligned _ ids (length counts))
      by (by rewrite ?length_fmap).
    by rewrite !app_nil_r.
  - intros -> Hotu Htree Hsetup Hg Hids. unfold alpha_diversity.
    rewrite alpha_metric_eq_same.
    assert ((if validate
             then external EvValidate (_validate_counts_matrix E counts ids)
             else mret counts)
            = (if validate then [EvValidate] else [], inr counts)) as ->.
    { destruct validate; [|done]. by rewrite Hvalid. }
    cbn. unfold _get_phylogenetic_kwargs. rewrite Hotu, Htree. cbn.
    rewrite Hsetup. cbn.
    rewrite (alpha_results (_faith_pd E) _ _ g counts_by_node) by done.
    cbn. rewrite (pd_Series_aligned _ ids (length counts_by_node))
      by (by rewrite ?length_fmap).
    by rewrite !app_nil_r.
Qed.

(** C5 (amended). A metric that is not 'faith_pd', not callable (so: a
    string) and not a registry name makes [alpha_diversity] raise without
    applying any metric to any row: the only call made is validation, when
    it is on. When validation has passed, or is off, the error is the
    input error "Unknown metric provided: <repr of the name>."; when
    validation raises, its error is the one raised and the metric goes
    unnamed. *)
Theorem alpha_diversity_unknown_metric name counts ids validate kwargs :
  name ≠ "faith_pd" →
  _get_alpha_diversity_metric_map E !! name = None →
  alpha_diversity E (AName name) counts ids validate kwargs
    = (if validate then [EvValidate] else [],
       inl (match (if validate then _validate_counts_matrix E counts ids
                   else inr counts) with
            | inl e => e
            | inr _ =>
                ValueError ("Unknown metric provided: " +:+ repr name +:+ ".")
            end)).
Proof.
  intros Hname Hreg. unfold alpha_diversity.
  rewrite alpha_metric_eq_name by done. rewrite Hreg.
  destruct validate; cbn; [|done].
  by destruct (_validate_counts_matrix E counts ids) as [e|counts'].
Qed.

Lemma mapM_call1_log (m : @callable1 Row D V) kwargs counts t results :
  mapM (call1 m kwargs) counts = (t, inr results) →
  t = EvAlphaMetric <$> counts ∧ length results = length counts.
Proof.
  revert t results. induction counts as [|c counts IH]; intros t results; cbn.
  - by intros [= <- <-].
  - destruct (m kwargs c) as [e|y]; cbn; [done|].
    destruct (mapM (call1 m kwargs) counts) as [t2 [e|ys]] eqn:Hrest; cbn;
      [done|].
    intros [= <- <-]. destruct (IH _ _ eq_refl) as [-> Hlen].
    rewrite app_nil_r. split; [done|]. simpl. by rewrite Hlen.
Qed.

(** The rows the metric scored, read off the call log: one value each. *)
Lemma alpha_rows_scored metric counts ids validate kwargs t s :
  alpha_diversity E metric counts ids validate kwargs = (t, inr s) →
  ∃ pre rows,
    t = pre ++ (EvAlphaMetric <$> rows) ∧
    length (values s) = length rows ∧
    Forall (λ ev, ev = EvValidate ∨ ev = EvPhylogeneticKwargs ∨
                  ∃ r, ev = EvTreeSetup r) pre ∧
    (alpha_metric_eq metric "faith_pd" = false →
     if validate then _validate_counts_matrix E counts ids = inr rows
     else rows = counts) ∧
    (alpha_metric_eq metric "faith_pd" = true →
     ∃ counts0 otu_ids tree kwargs' branch_lengths,
       (if validate then _validate_counts_matrix E counts ids = inr counts0
        else counts0 = counts) ∧
       _get_phylogenetic_kwargs counts0 kwargs = inr (otu_ids, tree, kwargs') ∧
       _setup_faith_pd E counts0 otu_ids tree validate
         = inr (rows, branch_lengths)).
Proof.
  unfold alpha_diversity. intros Hrun.
  apply bind_inr in Hrun as (t1 & counts0 & ? & Hval & Hrun & ->).
  apply bind_inr in Hrun as (t2 & [[metric1 rows] kwargs1] & ? & Hres & Hrun & ->).
  apply bind_inr in Hrun as (t3 & results & t4 & Hmap & Hrun & ->).
  apply mapM_call1_log in Hmap as [-> Hlen].
  assert (t4 = [] ∧ values s = results) as [-> Hvalues].
  { unfold pure_step, pd_Series in Hrun. destruct ids as [l|].
    - destruct (decide _); [|done]. by injection Hrun as <- <-.
    - by injection Hrun as <- <-. }
  exists (t1 ++ t2), rows. rewrite app_nil_r, app_assoc.
  split; [done|]. split; [by rewrite Hvalues|].
  assert (Forall (λ ev, ev = EvValidate ∨ ev = EvPhylogeneticKwargs ∨
                        ∃ r, ev = EvTreeSetup r) t1) as Ht1.
  { destruct validate; injection Hval as <- _; [|done].
    constructor; [by left|done]. }
  assert (if validate then _validate_counts_matrix E counts ids = inr counts0
          else counts0 = counts) as Hcounts0.
  { destruct validate.
    - by injection Hval as _ Hval.
    - by injection Hval as _ <-. }
  destruct (alpha_metric_eq metric "faith_pd") eqn:Hfaith.
  - apply bind_inr in Hres as (? & [[otu_ids tree] kw] & ? & Hext & Hres & ->).
    apply bind_inr in Hres as (? & [cbn bl] & ? & Hsetup & Hres & ->).
    injection Hext as <- Hext. injection Hsetup as <- Hsetup.
    injection Hres as <- _ <- _.
    split; [|split; [done|]].
    + apply Forall_app. split; [done|].
      constructor; [by right; left|].
      constructor; [right; right; eauto|done].
    + intros _. by exists counts0, otu_ids, tree, kw, bl.
  - assert (t2 = [] ∧ rows = counts0) as [-> ->].
    { destruct metric as [name|f].
      - destruct (_get_alpha_diversity_metric_map E !! name); [|done].
        by injection Hres as <- _ <- _.
      - by injection Hres as <- _ <- _. }
    split; [by rewrite app_nil_r|]. split; [|done]. by intros _.
Qed.

(** With [ids] absent, the index of the result series is [range(n)]. *)
Lemma alpha_default_index metric counts validate kwargs t s :
  alpha_diversity E metric counts None validate kwargs = (t, inr s) →
  index s = LInt <$> seq 0 (length (values s)).
Proof.
  unfold alpha_diversity. intros Hrun.
  apply bind_inr in Hrun as (? & counts0 & ? & _ & Hrun & _).
  apply bind_inr in Hrun as (? & [[metric1 counts1] kwargs1] & ? & _ & Hrun & _).
  apply bind_inr in Hrun as (? & results & ? & _ & Hrun & _).
  by injection Hrun as _ <-.
Qed.

Lemma alpha_one_value_per_row metric counts kwargs t s :
  alpha_metric_eq metric "faith_pd" = false →
  alpha_diversity E metric counts None false kwargs = (t, inr s) →
  length (values s) = length counts.
Proof.
  intros Hne. unfold alpha_diversity. rewrite Hne. intros Hrun.
  apply bind_inr in Hrun as (? & counts0 & ? & [= _ <-] & Hrun & _).
  apply bind_inr in Hrun as (? & [[metric1 counts1] kwargs1] & ? & Hres & Hrun & _).
  apply bind_inr in Hrun as (? & results & ? & Hmap & Hrun & _).
  injection Hrun as _ <-. simpl.
  apply mapM_length in Hmap. rewrite Hmap.
  destruct metric as [name|f].
  - destruct (_get_alpha_diversity_metric_map E !! name); [|done].
    by injection Hres as _ _ <- _.
  - by injection Hres as _ _ <- _.
Qed.

(** A callable that returns a value on every row: the series is returned,
    indexed by [range(n)]. *)
Lemma alpha_default_index_callable (f : @callable1 Row D V) (g : Row → D)
    counts kwargs :
  (∀ c, f kwargs c = inr (g c)) →
  alpha_diversity E (ACallable f) counts None false kwargs
    = (EvAlphaMetric <$> counts,
       inr {| values := g <$> counts;
              index := LInt <$> seq 0 (length counts) |}).
Proof.
  intros Hg. unfold alpha_diversity. cbn.
  rewrite (alpha_results f kwargs kwargs g counts).
  2: { intros c _. by rewrite (idemp (∪) kwargs). }
  cbn. by rewrite length_fmap, app_nil_r.
Qed.

End alpha.

(** ** Condensed vectors and their dimension *)

Lemma index_pairs_from_length n a m :
  a + m = n →
  2 * length (seq a m ≫= λ i, (λ j, (i, j)) <$> seq (S i) (n - S i)) = m * (m - 1).
Proof.
  revert a. induction m as [|m IH]; intros a Ham; [done|].
  cbn [seq mbind list_bind]. rewrite length_app, length_fmap, length_seq.
  specialize (IH (S a)). cbn [mbind] in IH.
  assert (n - S a = m) as -> by lia.
  destruct m as [|m']; [simpl in *; lia|].
  replace (S (S m') * (S (S m') - 1)) with (2 * S m' + S m' * (S m' - 1)) by nia.
  rewrite <- IH by lia. lia.
Qed.

Lemma index_pairs_length n : 2 * length (index_pairs n) = n * (n - 1).
Proof. by apply (index_pairs_from_length n 0 n). Qed.

Lemma triangular_succ k : S k * (S k - 1) / 2 = k * (k - 1) / 2 + k.
Proof.
  replace (S k * (S k - 1)) with (k * (k - 1) + k * 2) by (destruct k; nia).
  by rewrite Nat.div_add.
Qed.

Lemma triangular_lt k n : 1 ≤ k → k < n → k * (k - 1) / 2 < n * (n - 1) / 2.
Proof.
  intros Hk. induction 1 as [|n Hkn IH]; rewrite triangular_succ; lia.
Qed.

Lemma triangular_bound n : 1 ≤ n → n ≤ n * (n - 1) / 2 + 1.
Proof.
  induction 1 as [|n Hn IH]; [done|]. rewrite triangular_succ. lia.
Qed.

Lemma find_seq_first (P : nat → bool) a len n :
  a ≤ n < a + len → P n = true → (∀ k, a ≤ k < n → P k = false) →
  List.find P (seq a len) = Some n.
Proof.
  revert a. induction len as [|len IH]; intros a Hn HP Hfirst; [lia|].
  simpl. destruct (decide (a = n)) as [->|Hne].
  - by rewrite HP.
  - rewrite Hfirst by lia. apply IH; [lia|done|]. intros. apply Hfirst. lia.
Qed.

(** The dimension read back from the length of a condensed vector of [n]
    samples is [n]. *)
Lemma condensed_dim_index_pairs n :
  1 ≤ n → condensed_dim (length (index_pairs n)) = Some n.
Proof.
  intros Hn. pose proof (index_pairs_length n) as Hlen.
  assert (length (index_pairs n) = n * (n - 1) / 2) as ->.
  { rewrite <- Hlen. rewrite Nat.mul_comm. by rewrite Nat.div_mul. }
  unfold condensed_dim. apply find_seq_first.
  - pose proof (triangular_bound n Hn). lia.
  - apply Nat.eqb_refl.
  - intros k Hk. apply Nat.eqb_neq.
    pose proof (triangular_lt k n). lia.
Qed.

(** ** The beta engine *)

Section beta.
Context {Row D V : Type} `{!Scalar D} (E : @externals Row D V).
Implicit Types (counts : list Row) (kwargs : gmap string V).
Implicit Types (ids : option (list string)) (metric : @beta_metric Row D V).
Implicit Types (pf : @backend Row D V).

Lemma beta_backend_both ids pf id_pairs :
  beta_backend E ids (Some pf) (Some id_pairs)
    = raise (ValueError "`pairwise_func` is not compatible with `id_pairs`").
Proof. done. Qed.

Lemma trace_external_bind {A B} ev (r : exn + A) (k : A → @M Row B) :
  trace (external ev r ≫= k)
    = ev :: match r with inl _ => [] | inr x => trace (k x) end.
Proof. destruct r as [e|x]; cbn; [done|]. by destruct (k x). Qed.

Lemma beta_resolve_events metric counts validate kwargs :
  Forall (λ ev, ev = EvPhylogeneticKwargs ∨ ∃ r, ev = EvTreeSetup r)
         (trace (beta_resolve E metric counts validate kwargs)).
Proof.
  unfold beta_resolve.
  destruct (beta_metric_eq metric "unweighted_unifrac");
    [|destruct (beta_metric_eq metric "weighted_unifrac")].
  - rewrite trace_external_bind. constructor; [by left|].
    destruct (_get_phylogenetic_kwargs _ _) as [e|[[otu_ids tree] kwargs']];
      [constructor|].
    rewrite trace_external_bind. constructor; [right; by eexists|].
    destruct (_setup_multiple_unweighted_unifrac _ _ _ _ _) as [e|[m c]];
      constructor.
  - cbv zeta. rewrite trace_external_bind. constructor; [by left|].
    destruct (_get_phylogenetic_kwargs _ _) as [e|[[otu_ids tree] kwargs']];
      [constructor|].
    rewrite trace_external_bind. constructor; [right; by eexists|].
    destruct (_setup_multiple_weighted_unifrac _ _ _ _ _ _) as [e|[m c]];
      constructor.
  - destruct metric; constructor.
Qed.

(** C3 (amended). When both [pairwise_func] and [id_pairs] are supplied,
    [beta_diversity] raises without invoking a backend or a metric. The
    check comes after validation and metric resolution: the log is theirs
    (validation, keyword extraction, tree-aware setup), the error is theirs
    when one of them raises, and otherwise it is the input error
    "`pairwise_func` is not compatible with `id_pairs`". *)
Theorem beta_diversity_exclusive_arguments
    metric counts ids validate pf id_pairs kwargs :
  let prepared :=
    counts' ← beta_validate E counts ids validate;
    beta_resolve E metric counts' validate kwargs in
  beta_diversity E metric counts ids validate (Some pf) (Some id_pairs) kwargs
    = (trace prepared,
       inl (match outcome prepared with
            | inl e => e
            | inr _ => ValueError "`pairwise_func` is not compatible with `id_pairs`"
            end)) ∧
  Forall (λ ev, ev = EvValidate ∨ ev = EvPhylogeneticKwargs ∨
                ∃ r, ev = EvTreeSetup r)
         (trace prepared).
Proof.
  intros prepared. split.
  - unfold beta_diversity. rewrite <- bind_assoc. fold prepared.
    apply bind_raise. intros [[metric' counts'] kwargs'].
    by rewrite beta_backend_both.
  - subst prepared. unfold beta_validate, external.
    pose proof (beta_resolve_events metric) as Hres.
    destruct validate; cbn.
    + destruct (_validate_counts_matrix E counts ids) as [e|counts']; cbn.
      * repeat constructor.
      * specialize (Hres counts' true kwargs).
        destruct (beta_resolve E metric counts' true kwargs) as [t r]; cbn in *.
        constructor; [by left|].
        eapply Forall_impl; [exact Hres|]. intros ev [->|[r' ->]]; eauto.
    + specialize (Hres counts false kwargs).
      destruct (beta_resolve E metric counts false kwargs) as [t r]; cbn in *.
      eapply Forall_impl; [exact Hres|]. intros ev [->|[r' ->]]; eauto.
Qed.

Lemma get_beta_diversity_metrics_value :
  get_beta_diversity_metrics = ["unweighted_unifrac"; "weighted_unifrac"].
Proof. by vm_compute. Qed.

Lemma beta_resolve_unlisted name counts validate kwargs :
  name ∉ get_beta_diversity_metrics →
  beta_resolve E (BName name) counts validate kwargs
    = mret (BName name, counts, kwargs).
Proof.
  rewrite get_beta_diversity_metrics_value. intros Hname.
  apply not_elem_of_cons in Hname as [Hu Hname].
  apply not_elem_of_cons in Hname as [Hw _].
  unfold beta_resolve, beta_metric_eq.
  by rewrite !bool_decide_eq_false_2.
Qed.



(** ** What the distance structure accepts *)

Lemma pretty_seq_NoDup n : NoDup (pretty <$> seq 0 n : list string).
Proof. apply NoDup_fmap_2; [apply _|apply NoDup_seq]. Qed.

Lemma existsb_is_nan_false (d : list D) :
  Forall (λ x, is_nan x = false) d → existsb is_nan d = false.
Proof. induction 1 as [|x d Hx _ IH]; [done|]. simpl. by rewrite Hx, IH. Qed.

Lemma DistanceMatrix_new_ids (d : list D) n l :
  condensed_dim (length d) = Some n → NoDup l → length l = n →
  Forall (λ x, is_nan x = false) d →
  DistanceMatrix_new d (Some l) = inr {| condensed := d; dm_ids := l |}.
Proof.
  intros Hn Hdup Hlen Hnan. unfold DistanceMatrix_new. rewrite Hn.
  cbn [default]. unfold id. rewrite bool_decide_eq_true_2 by done.
  rewrite (proj2 (Nat.eqb_eq _ _) Hlen).
  by rewrite existsb_is_nan_false.
Qed.

Lemma DistanceMatrix_new_default (d : list D) n :
  condensed_dim (length d) = Some n →
  Forall (λ x, is_nan x = false) d →
  DistanceMatrix_new d None
    = inr {| condensed := d; dm_ids := pretty <$> seq 0 n |}.
Proof.
  intros Hn Hnan. unfold DistanceMatrix_new. rewrite Hn. cbn [default].
  unfold id. rewrite bool_decide_eq_true_2 by apply pretty_seq_NoDup.
  rewrite length_fmap, length_seq, Nat.eqb_refl.
  by rewrite existsb_is_nan_false.
Qed.

Lemma DistanceMatrix_new_inr (d : list D) ids dm :
  DistanceMatrix_new d ids = inr dm →
  ∃ n, condensed_dim (length d) = Some n ∧ condensed dm = d ∧
       dm_ids dm = default (pretty <$> seq 0 n) ids ∧
       NoDup (dm_ids dm) ∧ length (dm_ids dm) = n ∧
       Forall (λ x, is_nan x = false) d.
Proof.
  unfold DistanceMatrix_new.
  destruct (condensed_dim (length d)) as [n|] eqn:Hn; [|done].
  cbv zeta. case_bool_decide as Hdup; [|done]. cbn [negb].
  destruct (Nat.eqb _ n) eqn:Hlen; [|done]. cbn [negb].
  destruct (existsb is_nan d) eqn:Hnan; [done|].
  intros [= <-]. exists n. cbn. apply Nat.eqb_eq in Hlen.
  repeat split; try done.
  apply Forall_forall. intros x Hx.
  destruct (is_nan x) eqn:Hnx; [|done].
  assert (existsb is_nan d = true) as Habs; [|congruence].
  apply existsb_exists. exists x. split; [|done].
  by apply list_elem_of_In.
Qed.

(** With [ids] absent, the distance structure is labelled "0", "1", ... *)
Lemma beta_default_ids metric counts validate pairwise_func id_pairs kwargs t dm :
  beta_diversity E metric counts None validate pairwise_func id_pairs kwargs
    = (t, inr dm) →
  ∃ n, condensed_dim (length (condensed dm)) = Some n ∧
       dm_ids dm = pretty <$> seq 0 n.
Proof.
  unfold beta_diversity. intros Hrun.
  apply bind_inr in Hrun as (? & counts0 & ? & _ & Hrun & _).
  apply bind_inr in Hrun as (? & [[metric1 counts1] kwargs1] & ? & _ & Hrun & _).
  apply bind_inr in Hrun as (? & pf & ? & _ & Hrun & _).
  apply bind_inr in Hrun as (? & distances & ? & _ & Hrun & _).
  unfold pure_step in Hrun. injection Hrun as _ Hrun.
  apply DistanceMatrix_new_inr in Hrun as (n & Hn & -> & Hids & _).
  by exists n.
Qed.

Lemma pdist_length counts metric kwargs t d :
  pdist E counts metric kwargs = (t, inr d) →
  length d = length (index_pairs (length counts)).
Proof.
  unfold pdist, pdist_with. destruct metric as [name|f].
  - destruct (scipy_metric E name) as [f|]; [|done]. apply mapM_length.
  - apply mapM_length.
Qed.

(** With the default backend: one label per row of the counts that reach
    it. *)
Lemma beta_default_ids_per_row metric counts validate kwargs t dm :
  beta_diversity E metric counts None validate None None kwargs = (t, inr dm) →
  ∃ t0 counts0 t1 metric1 rows kwargs1,
    beta_validate E counts None validate = (t0, inr counts0) ∧
    beta_resolve E metric counts0 validate kwargs
      = (t1, inr (metric1, rows, kwargs1)) ∧
    (rows ≠ [] → dm_ids dm = pretty <$> seq 0 (length rows)).
Proof.
  unfold beta_diversity. intros Hrun.
  apply bind_inr in Hrun as (t0 & counts0 & ? & Hval & Hrun & _).
  apply bind_inr in Hrun as (t1 & [[metric1 rows] kwargs1] & ? & Hres & Hrun & _).
  apply bind_inr in Hrun as (? & pf & ? & Hpf & Hrun & _).
  apply bind_inr in Hrun as (? & distances & ? & Hinv & Hrun & _).
  exists t0, counts0, t1, metric1, rows, kwargs1.
  split; [done|]. split; [done|]. intros Hne.
  injection Hpf as _ <-. cbn [default] in Hinv.
  unfold invoke, external in Hinv.
  apply bind_inr in Hinv as (? & [] & ? & _ & Hinv & _).
  apply pdist_length in Hinv.
  unfold pure_step in Hrun. injection Hrun as _ Hrun.
  apply DistanceMatrix_new_inr in Hrun as (n & Hn & _ & Hids & _).
  rewrite Hinv, condensed_dim_index_pairs in Hn
    by (destruct rows; [done|simpl; lia]).
  injection Hn as <-. done.
Qed.

(** The default backend on a callable that returns a value that is not
    NaN: the call returns, with one label per row. *)
Lemma beta_default_ids_all_pairs (f : @callable2 Row D V) (g : Row → Row → D)
    counts kwargs :
  counts ≠ [] → (∀ a b, f kwargs a b = inr (g a b)) →
  (∀ a b, is_nan (g a b) = false) →
  ∃ t dm,
    beta_diversity E (BCallable f) counts None false None None kwargs = (t, inr dm) ∧
    dm_ids dm = pretty <$> seq 0 (length counts).
Proof.
  intros Hne Hf Hnan.
  destruct (pdist_with_values (partial2 f kwargs) counts ∅ (λ '(i, j),
              match counts !! i, counts !! j with
              | Some a, Some b => g a b
              | _, _ => dzero
              end)) as [t Hpd].
  { intros i j a b _ Ha Hb. unfold partial2.
    rewrite (left_id ∅ (∪) kwargs), Hf. by rewrite Ha, Hb. }
  unfold beta_diversity. cbn. rewrite Hpd. cbn.
  erewrite DistanceMatrix_new_default.
  - by eexists _, _.
  - rewrite length_fmap.
    apply condensed_dim_index_pairs. destruct counts; [done|simpl; lia].
  - apply Forall_fmap, Forall_forall. intros [i j] _. cbn.
    destruct (counts !! i), (counts !! j); auto using dzero_not_nan.
Qed.

End beta.

(** ** Default identifiers *)

(** C9 (amended). With [ids] absent, the index of the series returned by
    [alpha_diversity] is the integer positions [range(n)], not strings,
    one per row the metric scored, in row order: the call log ends with
    one metric call per such row, and these rows are the rows of [counts]
    (as validation returns them, when it is on) unless the metric is
    'faith_pd', which scores the rows of the node-level matrix that the
    setup returns. The id list of the distance structure returned by
    [beta_diversity] is the positions "0" to "n-1" as strings, for the
    [n] that is the dimension of the condensed vector it holds; with the
    default all-pairs backend that is one per row of the counts the
    backend receives (after validation and metric resolution), when there
    is at least one row. Both calls do return on a callable metric that
    returns values (for [beta_diversity]: values that are not NaN). *)
Theorem default_identifiers {Row D V : Type} `{!Scalar D}
    (E : @externals Row D V) :
  (∀ metric counts validate kwargs t s,
     alpha_diversity E metric counts None validate kwargs = (t, inr s) →
     index s = LInt <$> seq 0 (length (values s)) ∧
     ∃ pre rows,
       t = pre ++ (EvAlphaMetric <$> rows) ∧
       length (values s) = length rows ∧
       Forall (λ ev, ev = EvValidate ∨ ev = EvPhylogeneticKwargs ∨
                     ∃ r, ev = EvTreeSetup r) pre ∧
       (alpha_metric_eq metric "faith_pd" = false →
        if validate then _validate_counts_matrix E counts None = inr rows
        else rows = counts) ∧
       (alpha_metric_eq metric "faith_pd" = true →
        ∃ counts0 otu_ids tree kwargs' branch_lengths,
          (if validate then _validate_counts_matrix E counts None = inr counts0
           else counts0 = counts) ∧
          _get_phylogenetic_kwargs counts0 kwargs = inr (otu_ids, tree, kwargs') ∧
          _setup_faith_pd E counts0 otu_ids tree validate
            = inr (rows, branch_lengths))) ∧
  (∀ (f : callable1) (g : Row → D) counts kwargs,
     (∀ c, f kwargs c = inr (g c)) →
     alpha_diversity E (ACallable f) counts None false kwargs
       = (EvAlphaMetric <$> counts,
          inr {| values := g <$> counts;
                 index := LInt <$> seq 0 (length counts) |})) ∧
  (∀ metric counts validate pairwise_func id_pairs kwargs t dm,
     beta_diversity E metric counts None validate pairwise_func id_pairs kwargs
       = (t, inr dm) →
     ∃ n, condensed_dim (length (condensed dm)) = Some n ∧
          dm_ids dm = pretty <$> seq 0 n) ∧
  (∀ metric counts validate kwargs t dm,
     beta_diversity E metric counts None validate None None kwargs
       = (t, inr dm) →
     ∃ t0 counts0 t1 metric1 rows kwargs1,
       beta_validate E counts None validate = (t0, inr counts0) ∧
       beta_resolve E metric counts0 validate kwargs
         = (t1, inr (metric1, rows, kwargs1)) ∧
       (rows ≠ [] → dm_ids dm = pretty <$> seq 0 (length rows))) ∧
  (∀ (f : callable2) (g : Row → Row → D) counts kwargs,
     counts ≠ [] → (∀ a b, f kwargs a b = inr (g a b)) →
     (∀ a b, is_nan (g a b) = false) →
     ∃ t dm,
       beta_diversity E (BCallable f) counts None false None None kwargs
         = (t, inr dm) ∧
       dm_ids dm = pretty <$> seq 0 (length counts)).
Proof.
  split; [|split; [|split; [|split]]].
  - intros metric counts validate kwargs t s Hrun. split.
    + by eapply alpha_default_index.
    + by eapply alpha_rows_scored.
  - apply alpha_default_index_callable.
  - apply beta_default_ids.
  - apply beta_default_ids_per_row.
  - apply beta_default_ids_all_pairs.
Qed.

(** ** The properties on concrete calls *)

Lemma partial_pw_duplicate_pair_witness :
  size (hashes [("a", "b"); ("b", "a")]) ≠ length [("a", "b"); ("b", "a")] * 2 ∧
  ∃ msg,
    _partial_pw (Some ["a"; "b"; "c"]) [("a", "b"); ("b", "a")] counts3
                (BCallable row_total) (∅ : gmap string string)
      = ([], inl (ValueError msg)) ∧
    ∀ l, Some ["a"; "b"; "c"] = Some l →
         list_to_set (chain_from_iterable [("a", "b"); ("b", "a")])
           ⊆@{gset string} list_to_set l →
         msg = "Duplicate ID pairs observed.".
Proof.
  apply (partial_pw_duplicate_pair (Some ["a"; "b"; "c"])
           [("a", "b"); ("b", "a")] counts3 (BCallable row_total) ∅).
  exists 0, 1, ("a", "b"), ("b", "a").
  split; [lia|]. split; [reflexivity|]. split; [reflexivity|].
  right. reflexivity.
Defined.

Lemma partial_pw_self_pair_witness :
  ∃ msg,
    _partial_pw (Some ["a"; "b"; "c"]) [("a", "b"); ("a", "a")] counts3
                (BCallable row_total) (∅ : gmap string string)
      = ([], inl (ValueError msg)).
Proof.
  apply (partial_pw_self_pair (Some ["a"; "b"; "c"]) [("a", "b"); ("a", "a")]
           counts3 (BCallable row_total) ∅ "a").
  apply (bool_decide_unpack _). by vm_compute.
Defined.

Lemma partial_pw_metric_not_callable_witness :
  ∃ msg,
    _partial_pw (Some ids3) [("s1", "s2")] counts3
                (BName "euclidean") (∅ : gmap string string)
      = ([], inl (ValueError msg)) ∧
    ∀ l, Some ids3 = Some l → pairs_accepted l [("s1", "s2")] →
         msg = "`metric` must be callable".
Proof.
  apply (partial_pw_metric_not_callable (Some ids3) [("s1", "s2")] counts3
           (BName "euclidean") ∅).
  reflexivity.
Defined.

Lemma alpha_diversity_registry_metric_witness :
  alpha_diversity easy_externals (AName "observed_otus") counts3 (Some ids3)
                  true ∅
    = ([EvValidate] ++ (EvAlphaMetric <$> counts3),
       inr {| values := count_nonzero <$> counts3; index := LStr <$> ids3 |}) ∧
  alpha_diversity easy_externals (AName "faith_pd") counts3 None true tree_kwargs
    = ([EvValidate] ++ [EvPhylogeneticKwargs; EvTreeSetup "_setup_faith_pd"] ++
         (EvAlphaMetric <$> counts3),
       inr {| values := count_nonzero <$> counts3;
              index := LInt <$> seq 0 (length counts3) |}).
Proof.
  split.
  - apply (proj1 (alpha_diversity_registry_metric easy_externals
             "observed_otus" observed
             count_nonzero
             counts3 (Some ids3) true ∅ "" "" [] "" (λ _, eq_refl))).
    + by vm_compute.
    + by vm_compute.
    + reflexivity.
    + by intros l [= <-].
  - apply (proj2 (alpha_diversity_registry_metric easy_externals
             "faith_pd" observed
             count_nonzero
             counts3 None true tree_kwargs
             "OTU1,OTU2" "(OTU1:0.5,OTU2:0.5)root;" counts3
             "(OTU1:0.5,OTU2:0.5)root;" (λ _, eq_refl))).
    + reflexivity.
    + by vm_compute.
    + by vm_compute.
    + reflexivity.
    + reflexivity.
    + by intros l [=].
Defined.

Lemma alpha_diversity_unknown_metric_witness :
  alpha_diversity easy_externals (AName "nope") counts3 (Some ids3) true ∅
    = ([EvValidate], inl (ValueError "Unknown metric provided: 'nope'.")).
Proof.
  apply (alpha_diversity_unknown_metric easy_externals "nope" counts3
           (Some ids3) true ∅).
  - by vm_compute.
  - by vm_compute.
Defined.


Lemma default_identifiers_witness :
  (index {| values := [2; 2; 1]%Z; index := [LInt 0; LInt 1; LInt 2] |}
     = LInt <$> seq 0 3 ∧
   ∃ pre rows,
     [EvValidate; EvAlphaMetric [1; 3]%Z; EvAlphaMetric [1; 1]%Z;
      EvAlphaMetric [0; 1]%Z] = pre ++ (EvAlphaMetric <$> rows) ∧
     3 = length rows ∧
     Forall (λ ev : @event (list Z),
               ev = EvValidate ∨ ev = EvPhylogeneticKwargs ∨
               ∃ r, ev = EvTreeSetup r) pre ∧
     (alpha_metric_eq (@AName (list Z) Z string "observed_otus") "faith_pd"
        = false →
      _validate_counts_matrix easy_externals counts3 None = inr rows) ∧
     (alpha_metric_eq (@AName (list Z) Z string "observed_otus") "faith_pd"
        = true →
      ∃ counts0 otu_ids tree kwargs' branch_lengths,
        _validate_counts_matrix easy_externals counts3 None = inr counts0 ∧
        _get_phylogenetic_kwargs counts0 ∅ = inr (otu_ids, tree, kwargs') ∧
        _setup_faith_pd easy_externals counts0 otu_ids tree true
          = inr (rows, branch_lengths))) ∧
  (∃ n, condensed_dim 3 = Some n ∧ ["0"; "1"; "2"] = pretty <$> seq 0 n) ∧
  (∃ t0 counts0 t1 metric1 rows kwargs1,
     beta_validate easy_externals counts3 None true = (t0, inr counts0) ∧
     beta_resolve easy_externals (BCallable row_difference) counts0 true ∅
       = (t1, inr (metric1, rows, kwargs1)) ∧
     (rows ≠ [] → ["0"; "1"; "2"] = pretty <$> seq 0 (length rows))).
Proof.
  assert (beta_diversity easy_externals (BCallable row_difference) counts3
                         None true None None ∅
            = ([EvValidate; EvPairwise; EvBetaMetric [1; 3]%Z [1; 1]%Z;
                EvBetaMetric [1; 3]%Z [0; 1]%Z; EvBetaMetric [1; 1]%Z [0; 1]%Z],
               inr {| condensed := [2; 3; 1]%Z; dm_ids := ["0"; "1"; "2"] |}))
    as Hrun by (by vm_compute).
  split; [|split].
  - apply (proj1 (default_identifiers easy_externals)
             (AName "observed_otus") counts3 true ∅
             [EvValidate; EvAlphaMetric [1; 3]%Z; EvAlphaMetric [1; 1]%Z;
              EvAlphaMetric [0; 1]%Z]
             {| values := [2; 2; 1]%Z; index := [LInt 0; LInt 1; LInt 2] |}
             eq_refl).
  - apply (proj1 (proj2 (proj2 (default_identifiers easy_externals)))
             (BCallable row_difference) counts3 true None None ∅
             [EvValidate; EvPairwise; EvBetaMetric [1; 3]%Z [1; 1]%Z;
              EvBetaMetric [1; 3]%Z [0; 1]%Z; EvBetaMetric [1; 1]%Z [0; 1]%Z]
             {| condensed := [2; 3; 1]%Z; dm_ids := ["0"; "1"; "2"] |}
             Hrun).
  - apply (proj1 (proj2 (proj2 (proj2 (default_identifiers easy_externals))))
             (BCallable row_difference) counts3 true ∅
             [EvValidate; EvPairwise; EvBetaMetric [1; 3]%Z [1; 1]%Z;
              EvBetaMetric [1; 3]%Z [0; 1]%Z; EvBetaMetric [1; 1]%Z [0; 1]%Z]
             {| condensed := [2; 3; 1]%Z; dm_ids := ["0"; "1"; "2"] |}
             Hrun).
Defined.

(** ** Where the spec's sentences fail *)

(** C3, as stated, fails: with a tree-aware metric name the keyword
    extraction and the tree-aware setup run before the exclusion check
    raises; and when the setup raises, its error is the one raised. *)
Lemma beta_diversity_checks_exclusion_after_setup :
  beta_diversity easy_externals (BName "unweighted_unifrac") counts3 (Some ids3)
                 true (Some (pdist easy_externals)) (Some [("s1", "s2")])
                 tree_kwargs
    = ([EvValidate; EvPhylogeneticKwargs;
        EvTreeSetup "_setup_multiple_unweighted_unifrac"],
       inl (ValueError "`pairwise_func` is not compatible with `id_pairs`")) ∧
  beta_diversity bad_tree_externals (BName "unweighted_unifrac") counts3
                 (Some ids3) true (Some (pdist bad_tree_externals))
                 (Some [("s1", "s2")]) tree_kwargs
    = ([EvValidate; EvPhylogeneticKwargs;
        EvTreeSetup "_setup_multiple_unweighted_unifrac"],
       inl (MissingNodeError "OTU3 is not a tip of the tree")).
Proof. split; by vm_compute. Qed.

(** C4, as stated, fails: 'faith_pd' is a registry name, and
    [alpha_diversity('faith_pd', X)] raises instead of returning a series,
    the tree-aware branch being taken first and finding no [otu_ids]. *)
Lemma alpha_diversity_faith_pd_needs_keywords :
  "faith_pd" ∈ get_alpha_diversity_metrics easy_externals ∧
  is_Some (_get_alpha_diversity_metric_map easy_externals !! "faith_pd") ∧
  alpha_diversity easy_externals (AName "faith_pd") counts3 (Some ids3) true ∅
    = ([EvValidate; EvPhylogeneticKwargs],
       inl (ValueError "`otu_ids` is required for phylogenetic diversity metrics.")).
Proof.
  split; [apply (bool_decide_unpack _); by vm_compute|].
  split; [by eexists|by vm_compute].
Qed.

(** C9, as stated, fails for [alpha_diversity]: without [ids] the index
    of the series is the integers 0, 1, 2, not the strings "0", "1", "2". *)
Lemma alpha_diversity_default_index_is_integers :
  alpha_diversity easy_externals (AName "observed_otus") counts3 None true ∅
    = ([EvValidate] ++ (EvAlphaMetric <$> counts3),
       inr {| values := [2; 2; 1]%Z; index := [LInt 0; LInt 1; LInt 2] |}) ∧
  [LInt 0; LInt 1; LInt 2] ≠ LStr <$> (pretty <$> seq 0 3).
Proof. split; [by vm_compute|]. by vm_compute. Qed.

(** C5, as stated, fails: validation comes before the metric is looked
    up, so on counts that validation refuses the error raised is the
    validator's and does not name the unknown metric. *)
Lemma alpha_diversity_unknown_metric_unnamed :
  "nope" ≠ "faith_pd" ∧
  _get_alpha_diversity_metric_map checking_externals !! "nope" = None ∧
  alpha_diversity checking_externals (AName "nope") counts_negative (Some ids3)
                  true ∅
    = ([EvValidate],
       inl (ValueError "Counts vector cannot contain negative values.")) ∧
  ValueError "Counts vector cannot contain negative values."
    ≠ ValueError ("Unknown metric provided: " +:+ repr "nope" +:+ ".").
Proof. repeat split; by vm_compute. Qed.

(** * Further properties of the driver *)

(** ** The registry listing *)

Lemma str_le_total : Total str_le.
Proof. intros a b. apply String.leb_total. Qed.

(** [get_alpha_diversity_metrics] lists exactly the keys of the metric map
    that [alpha_diversity] consults, each once, in ascending order; there
    are 31 of them. *)
Theorem get_alpha_diversity_metrics_lists_registry {Row D V : Type} `{!Scalar D}
    (E : @externals Row D V) :
  (∀ name, name ∈ get_alpha_diversity_metrics E ↔
           is_Some (_get_alpha_diversity_metric_map E !! name)) ∧
  Sorted str_le (get_alpha_diversity_metrics E) ∧
  NoDup (get_alpha_diversity_metrics E) ∧
  length (get_alpha_diversity_metrics E) = 31.
Proof.
  unfold get_alpha_diversity_metrics, sorted. split; [|split; [|split]].
  - intros name. rewrite merge_sort_Permutation, list_elem_of_fmap. split.
    + intros ([name' f] & -> & Hin). apply elem_of_map_to_list in Hin.
      by eexists.
    + intros [f Hf]. exists (name, f). split; [done|].
      by apply elem_of_map_to_list.
  - apply Sorted_merge_sort, str_le_total.
  - rewrite merge_sort_Permutation. apply NoDup_fst_map_to_list.
  - rewrite merge_sort_Permutation, length_fmap, length_map_to_list.
    by vm_compute.
Qed.

(** ** The checks of [_partial_pw] *)

Section partial_pw_more_checks.
Context {Row D V : Type} `{!Scalar D}.
Implicit Types (counts : list Row) (kwargs : gmap string V).
Implicit Types (id_pairs : list (string * string)).
Implicit Types (metric : @beta_metric Row D V).

(** A pair naming an id that is not in [ids] makes [_partial_pw] raise
    "`id_pairs` are not a subset of `ids`", whatever else is wrong with the
    pairs or the metric, and before any metric call. *)
Theorem partial_pw_unknown_id ids id_pairs counts metric kwargs u v :
  (u, v) ∈ id_pairs → u ∉ ids ∨ v ∉ ids →
  _partial_pw (Some ids) id_pairs counts metric kwargs
    = ([], inl (ValueError "`id_pairs` are not a subset of `ids`")).
Proof.
  intros Hin Hout. unfold _partial_pw.
  case_bool_decide as Hsub; [|done]. exfalso.
  apply elem_of_chain_from_iterable in Hin as [Hu Hv].
  destruct Hout as [Hout|Hout]; apply Hout;
    apply (elem_of_list_to_set (C:=gset string)), Hsub, elem_of_list_to_set;
    done.
Qed.

Lemma hashes_size_exact id_pairs :
  size (hashes id_pairs) = length id_pairs * 2 ↔
  ¬ repeats_a_pair id_pairs ∧ ∀ a, (a, a) ∉ id_pairs.
Proof.
  rewrite hashes_size_iff. split.
  - intros Hnd. split.
    + intros Hrep. by apply (repeats_a_pair_not_NoDup id_pairs).
    + intros a Hin. by apply (self_pair_not_NoDup id_pairs a).
  - intros [Hrep Hself]. apply NoDup_app. split; [|split].
    + apply NoDup_alt. intros i j p Hi Hj.
      destruct (decide (i = j)) as [|Hne]; [done|]. exfalso.
      apply Hrep. exists i, j, p, p. repeat split; try done. by left.
    + intros p Hp Hp'. apply list_elem_of_fmap in Hp' as (q & -> & Hq).
      apply list_elem_of_lookup in Hp as [i Hi].
      apply list_elem_of_lookup in Hq as [j Hj].
      destruct (decide (i = j)) as [->|Hne].
      * assert (q = reversed q) as Heq by congruence.
        destruct q as [a b]. unfold reversed in Heq. simpl in Heq.
        injection Heq as ->. apply (Hself b).
        by eapply list_elem_of_lookup_2.
      * apply Hrep. exists i, j, (reversed q), q. repeat split; try done.
        by right.
    + apply NoDup_fmap_2; [apply _|].
      apply NoDup_alt. intros i j p Hi Hj.
      destruct (decide (i = j)) as [|Hne]; [done|]. exfalso.
      apply Hrep. exists i, j, p, p. repeat split; try done. by left.
Qed.

(** The duplicate check has no false alarm: it passes exactly when no
    unordered pair is listed twice and no pair is a self-pair. *)
Theorem duplicate_check_exact id_pairs :
  size (hashes id_pairs) = length id_pairs * 2 ↔
  ¬ repeats_a_pair id_pairs ∧ ∀ a, (a, a) ∉ id_pairs.
Proof. apply hashes_size_exact. Qed.

(** Distinct unordered pairs over known ids, none of them a self-pair,
    are always accepted: with a callable that returns values, none of
    them NaN on a listed pair, and a row for every id, [_partial_pw]
    returns a vector. *)
Theorem partial_pw_accepts_distinct_pairs ids id_pairs counts
    (f : @callable2 Row D V) kwargs (g : Row → Row → D) :
  (∀ u v, (u, v) ∈ id_pairs → u ∈ ids ∧ v ∈ ids) →
  ¬ repeats_a_pair id_pairs →
  (∀ a, (a, a) ∉ id_pairs) →
  length ids ≤ length counts →
  (∀ a b, f kwargs a b = inr (g a b)) →
  listed_not_nan ids counts id_pairs g →
  ∃ t d, _partial_pw (Some ids) id_pairs counts (BCallable f) kwargs = (t, inr d).
Proof.
  intros Hknown Hrep Hself Hlen Hf Hnan.
  assert (pairs_accepted ids id_pairs) as Hacc.
  { split; [|by apply hashes_size_exact].
    intros x Hx. apply elem_of_list_to_set in Hx. apply elem_of_list_to_set.
    unfold chain_from_iterable in Hx.
    apply list_elem_of_bind in Hx as ([u v] & Hx & Hin).
    destruct (Hknown u v Hin) as [Hu Hv].
    apply elem_of_cons in Hx as [->|Hx]; [done|].
    apply elem_of_cons in Hx as [->|Hx]; [done|].
    by apply elem_of_nil in Hx. }
  destruct (partial_pw_run ids id_pairs counts f kwargs g Hacc Hlen Hf Hnan)
    as (dm & tr & _ & _ & _ & _ & _ & _ & Hrun).
  by eexists _, _.
Qed.

End partial_pw_more_checks.

(** ** The identifier index *)

Lemma id_index_from_last (l1 l2 : list string) k m u :
  u ∉ l2 →
  foldl id_index_step m
        (zip (seq k (length (l1 ++ u :: l2))) (l1 ++ u :: l2)) !! u
    = Some (k + length l1).
Proof.
  intros Hnotin. revert k m. induction l1 as [|x l1 IH]; intros k m.
  - simpl. rewrite id_index_from_notin by done.
    rewrite lookup_insert_eq. f_equal. lia.
  - simpl. rewrite IH. f_equal. lia.
Qed.

(** The index built at line 235 knows exactly the ids of [ids]; the index
    it gives for an id is a row labelled with that id, and when an id
    labels several rows it is the last of them. *)
Theorem make_id_index_last_row (ids : list string) :
  (∀ u, u ∈ ids ↔ is_Some (make_id_index ids !! u)) ∧
  (∀ u i, make_id_index ids !! u = Some i → ids !! i = Some u) ∧
  (∀ l1 l2 u, ids = l1 ++ u :: l2 → u ∉ l2 →
              make_id_index ids !! u = Some (length l1)).
Proof.
  split; [|split].
  - intros u. split; [apply make_id_index_is_Some|].
    intros [i Hi]. eapply list_elem_of_lookup_2, make_id_index_lookup, Hi.
  - apply make_id_index_lookup.
  - intros l1 l2 u -> Hnotin.
    by apply (id_index_from_last l1 l2 0 ∅ u).
Qed.

(** ** The vector [_partial_pw] returns *)

Section partial_pw_vector.
Context {Row D V : Type} `{!Scalar D}.
Implicit Types (counts : list Row) (kwargs : gmap string V).
Implicit Types (id_pairs : list (string * string)) (dm : list (list D)).
Implicit Types (f : @callable2 Row D V).

Lemma setitem_square n (X X' : list (list D)) u v x :
  square n X → setitem X u v x = inr X' → square n X'.
Proof.
  intros [Hlen Hrows]. unfold setitem.
  destruct (X !! u) as [row|] eqn:Hrow; [|done].
  destruct (decide (v < length row)); [|done]. intros [= <-]. split.
  - by rewrite length_insert.
  - apply Forall_insert; [done|]. rewrite length_insert.
    by eapply (Forall_lookup_1 _ _ _ _ Hrows).
Qed.

Lemma fill_step_square n id_index counts f kwargs dm p t dm' :
  square n dm →
  fill_step id_index counts f kwargs dm p = (t, inr dm') → square n dm'.
Proof.
  intros Hsq. unfold fill_step. intros Hrun.
  apply bind_inr in Hrun as (? & u & ? & _ & Hrun & _).
  apply bind_inr in Hrun as (? & v & ? & _ & Hrun & _).
  apply bind_inr in Hrun as (? & cu & ? & _ & Hrun & _).
  apply bind_inr in Hrun as (? & cv & ? & _ & Hrun & _).
  apply bind_inr in Hrun as (? & y & ? & _ & Hrun & _).
  injection Hrun as _ Hset. by eapply setitem_square.
Qed.

Lemma for_each_fill_square n id_index counts f kwargs id_pairs dm t dm' :
  square n dm →
  for_each (fill_step id_index counts f kwargs) dm id_pairs = (t, inr dm') →
  square n dm'.
Proof.
  revert dm t. induction id_pairs as [|p ps IH]; intros dm t Hsq; cbn [for_each].
  - by intros [= _ <-].
  - intros Hrun. apply bind_inr in Hrun as (? & dm1 & ? & Hstep & Hrun & _).
    eapply IH; [|exact Hrun]. by eapply fill_step_square.
Qed.

Lemma upper_triangle_length (X : list (list D)) :
  2 * length (upper_triangle X) = length X * (length X - 1).
Proof. unfold upper_triangle. rewrite length_fmap. apply index_pairs_length. Qed.

Lemma partial_pw_length ids id_pairs counts
    (metric : @beta_metric Row D V) kwargs t d :
  _partial_pw (Some ids) id_pairs counts metric kwargs = (t, inr d) →
  2 * length d = length ids * (length ids - 1).
Proof.
  unfold _partial_pw.
  destruct (negb (bool_decide _)); [done|].
  destruct (negb (Nat.eqb _ _)); [done|].
  destruct metric as [name|f]; [done|]. intros Hrun.
  apply bind_inr in Hrun as (? & dm & ? & Hfill & Hrun & _).
  unfold fill_dm in Hfill.
  apply for_each_fill_square with (n := length ids) in Hfill;
    [|apply zeros_square].
  unfold pure_step, squareform in Hrun.
  destruct (negb (is_square _)); [done|].
  destruct (negb (is_symmetric _)); [done|].
  destruct (negb (is_hollow _)); [done|].
  injection Hrun as _ <-. rewrite upper_triangle_length.
  by destruct (madd_square _ _ _ Hfill (transpose_square _ _ Hfill)) as [-> _].
Qed.

(** Whenever [_partial_pw] returns, its vector has n(n-1)/2 entries for
    the n ids, however few pairs were listed. *)
Theorem partial_pw_vector_length ids id_pairs counts
    (metric : @beta_metric Row D V) kwargs t d :
  _partial_pw (Some ids) id_pairs counts metric kwargs = (t, inr d) →
  2 * length d = length ids * (length ids - 1).
Proof. apply partial_pw_length. Qed.

(** With unique ids and a metric that is not NaN on a listed pair, entry
    by entry: the entry of rows [i < j] is the metric on (row i, row j)
    when the pair is listed in that orientation, the metric on (row j,
    row i) when it is listed reversed, and 0 when it is not listed. *)
Theorem partial_pw_entries ids id_pairs counts f kwargs (g : Row → Row → D) :
  NoDup ids →
  pairs_accepted ids id_pairs →
  length ids ≤ length counts →
  (∀ a b, f kwargs a b = inr (g a b)) →
  listed_not_nan ids counts id_pairs g →
  ∃ t d,
    _partial_pw (Some ids) id_pairs counts (BCallable f) kwargs = (t, inr d) ∧
    ∀ k i j u v a b,
      index_pairs (length ids) !! k = Some (i, j) →
      ids !! i = Some u → ids !! j = Some v →
      counts !! i = Some a → counts !! j = Some b →
      ((u, v) ∈ id_pairs → d !! k = Some (g a b)) ∧
      ((v, u) ∈ id_pairs → d !! k = Some (g b a)) ∧
      ((u, v) ∉ id_pairs → (v, u) ∉ id_pairs → d !! k = Some dzero).
Proof.
  intros Hnd Hacc Hlen Hf Hnan.
  destruct (partial_pw_run ids id_pairs counts f kwargs g Hacc Hlen Hf Hnan)
    as (dm & tr & _ & Hsq & _ & Hset & Hzero & _ & Hrun).
  eexists _, _. split; [exact Hrun|].
  intros k i j u v a b Hk Hu Hv Ha Hb.
  assert (i < j < length ids) as Hij
    by (apply elem_of_index_pairs; by eapply list_elem_of_lookup_2).
  assert (upper_triangle (madd dm (transpose dm)) !! k
          = Some (dadd (cell dm i j) (cell dm j i))) as ->.
  { unfold upper_triangle.
    destruct (madd_square _ _ _ Hsq (transpose_square _ _ Hsq)) as [-> _].
    rewrite list_lookup_fmap, Hk. simpl.
    by rewrite (cell_madd_transpose (length ids)) by (done || lia). }
  pose proof (make_id_index_NoDup _ _ _ Hnd Hu) as Hiu.
  pose proof (make_id_index_NoDup _ _ _ Hnd Hv) as Hiv.
  split; [|split].
  - intros Hin. destruct (Hset (u, v) i j a b Hin) as [-> ->]; [by repeat split|].
    by rewrite dadd_0_r.
  - intros Hin. destruct (Hset (v, u) j i b a Hin) as [-> ->]; [by repeat split|].
    by rewrite dadd_0_l.
  - intros Hnot Hnot'. rewrite !Hzero; [by rewrite dadd_0_l| |].
    + intros [u' v'] Hin [Hu' Hv']. simpl in *.
      apply make_id_index_lookup in Hu', Hv'.
      apply Hnot'. congruence.
    + intros [u' v'] Hin [Hu' Hv']. simpl in *.
      apply make_id_index_lookup in Hu', Hv'.
      apply Hnot. congruence.
Qed.

(** With no pair listed, every distance is reported as 0: the result is
    the all-zero vector, for any ids and counts, and the metric is never
    called. *)
Theorem partial_pw_no_pairs ids counts f kwargs :
  _partial_pw (Some ids) [] counts (BCallable f) kwargs
    = ([], inr (replicate (length (index_pairs (length ids))) dzero)).
Proof.
  unfold _partial_pw.
  case_bool_decide as Hsub.
  2: { exfalso. apply Hsub. intros x Hx. apply elem_of_list_to_set in Hx.
       by apply elem_of_nil in Hx. }
  assert (size (hashes []) = 0) as -> by (by vm_compute).
  cbn -[squareform madd transpose zeros index_pairs].
  rewrite (squareform_madd_transpose (length ids)).
  2: apply zeros_square.
  2: { intros i j _ _. rewrite !cell_zeros, dadd_0_l. apply dzero_not_nan. }
  2: { intros i _. apply cell_zeros. }
  do 2 f_equal. unfold upper_triangle.
  destruct (madd_square _ _ _ (zeros_square (length ids))
              (transpose_square _ _ (zeros_square (length ids)))) as [-> _].
  apply const_fmap. intros k [i j] Hk.
  apply list_elem_of_lookup_2, elem_of_index_pairs in Hk.
  rewrite (cell_madd_transpose (length ids)) by (apply zeros_square || lia).
  rewrite !cell_zeros. apply dadd_0_l.
Qed.

Lemma pairs_accepted_perm ids id_pairs id_pairs' :
  id_pairs ≡ₚ id_pairs' → pairs_accepted ids id_pairs →
  pairs_accepted ids id_pairs'.
Proof.
  intros Hperm [Hsub Hsize]. split.
  - intros x Hx. apply Hsub. apply elem_of_list_to_set in Hx.
    apply elem_of_list_to_set. unfold chain_from_iterable in *.
    apply list_elem_of_bind in Hx as (p & Hx & Hp).
    apply list_elem_of_bind. exists p. split; [done|]. by rewrite Hperm.
  - apply hashes_size_iff. apply hashes_size_iff in Hsize.
    by rewrite <- Hperm.
Qed.

Lemma listed_not_nan_perm ids counts id_pairs id_pairs' (g : Row → Row → D) :
  id_pairs ≡ₚ id_pairs' → listed_not_nan ids counts id_pairs g →
  listed_not_nan ids counts id_pairs' g.
Proof.
  intros Hperm Hnan p i j a b Hp Hr. apply (Hnan p i j a b); [|done].
  by rewrite Hperm.
Qed.

(** The metric call a listed pair stands for is a function of the pair. *)
Lemma call_log_of_pairs ids counts :
  ∃ call_of : string * string → @event Row,
    ∀ id_pairs tr,
      Forall2 (λ p ev, ∃ i j a b, resolves ids counts p i j a b ∧
                                  ev = EvBetaMetric a b) id_pairs tr →
      tr = call_of <$> id_pairs.
Proof.
  exists (λ p, match make_id_index ids !! p.1, make_id_index ids !! p.2 with
               | Some i, Some j =>
                   match counts !! i, counts !! j with
                   | Some a, Some b => EvBetaMetric a b
                   | _, _ => EvPairwise
                   end
               | _, _ => EvPairwise
               end).
  induction 1 as [|p ev ps tr (i & j & a & b & ((Hi & Hj) & Ha & Hb) & ->) _ IH];
    [done|].
  cbn [fmap list_fmap]. rewrite <- IH. f_equal.
  by rewrite Hi, Hj, Ha, Hb.
Qed.

(** The order in which the pairs are listed does not matter to the
    result: on accepted pairs, with a metric that returns values that are
    not NaN on a listed pair, the two calls return the same vector, and
    their logs hold the same metric calls, in the order of the pairs. *)
Theorem partial_pw_order_irrelevant ids id_pairs id_pairs' counts f kwargs
    (g : Row → Row → D) :
  id_pairs ≡ₚ id_pairs' →
  pairs_accepted ids id_pairs →
  length ids ≤ length counts →
  (∀ a b, f kwargs a b = inr (g a b)) →
  listed_not_nan ids counts id_pairs g →
  ∃ t t' d,
    _partial_pw (Some ids) id_pairs counts (BCallable f) kwargs = (t, inr d) ∧
    _partial_pw (Some ids) id_pairs' counts (BCallable f) kwargs = (t', inr d) ∧
    t ≡ₚ t' ∧
    Forall2 (λ p ev, ∃ i j a b, resolves ids counts p i j a b ∧
                                ev = EvBetaMetric a b) id_pairs t ∧
    Forall2 (λ p ev, ∃ i j a b, resolves ids counts p i j a b ∧
                                ev = EvBetaMetric a b) id_pairs' t'.
Proof.
  intros Hperm Hacc Hlen Hf Hnan.
  pose proof (pairs_accepted_perm _ _ _ Hperm Hacc) as Hacc'.
  pose proof (listed_not_nan_perm _ _ _ _ _ Hperm Hnan) as Hnan'.
  pose proof (accepted_resolves ids id_pairs counts Hacc Hlen) as Hres.
  destruct (partial_pw_run ids id_pairs counts f kwargs g Hacc Hlen Hf Hnan)
    as (dm & tr & _ & Hsq & Hlog & Hset & Hzero & _ & Hrun).
  destruct (partial_pw_run ids id_pairs' counts f kwargs g Hacc' Hlen Hf Hnan')
    as (dm' & tr' & _ & Hsq' & Hlog' & Hset' & Hzero' & _ & Hrun').
  exists tr, tr', (upper_triangle (madd dm (transpose dm))).
  split; [done|]. split; [|split; [|done]].
  2: { destruct (call_log_of_pairs ids counts) as [call_of Hcalls].
       rewrite (Hcalls _ _ Hlog), (Hcalls _ _ Hlog').
       by apply fmap_Permutation. }
  rewrite Hrun'. do 2 f_equal.
  assert (∀ i j, cell dm' i j = cell dm i j) as Hcells.
  { intros i j.
    destruct (decide (Exists (λ p, cell_of ids p i j) id_pairs)) as [Hex|Hnex].
    - apply Exists_exists in Hex as (p & Hp & Hcell).
      pose proof (proj1 (Forall_forall _ _) Hres p Hp)
        as (i' & j' & a & b & Hcell' & Ha & Hb).
      destruct Hcell as [Hi Hj], Hcell' as [Hi' Hj'].
      assert (i' = i) as -> by congruence. assert (j' = j) as -> by congruence.
      rewrite (proj1 (Hset p i j a b Hp ltac:(by repeat split))).
      apply (Hset' p i j a b); [by rewrite <- Hperm|by repeat split].
    - rewrite Hzero, Hzero'; [done| |].
      + intros p Hp Hcell. apply Hnex, Exists_exists. exists p.
        split; [by rewrite Hperm|done].
      + intros p Hp Hcell. apply Hnex, Exists_exists. by exists p. }
  unfold upper_triangle.
  destruct (madd_square _ _ _ Hsq (transpose_square _ _ Hsq)) as [-> _].
  destruct (madd_square _ _ _ Hsq' (transpose_square _ _ Hsq')) as [-> _].
  apply list_fmap_ext. intros k [i j] Hk.
  apply list_elem_of_lookup_2, elem_of_index_pairs in Hk.
  rewrite !(cell_madd_transpose (length ids)) by (done || lia).
  by rewrite !Hcells.
Qed.

(** A metric value that is NaN on a listed pair makes [_partial_pw] raise:
    every listed pair has been computed, and the check that the matrix
    equals its transpose, made before the upper triangle is taken, fails
    because NaN equals nothing. *)
Theorem partial_pw_nan_raises ids id_pairs counts f kwargs
    (g : Row → Row → D) p i j a b :
  pairs_accepted ids id_pairs →
  length ids ≤ length counts →
  (∀ a b, f kwargs a b = inr (g a b)) →
  p ∈ id_pairs → resolves ids counts p i j a b →
  is_nan (g a b) = true →
  ∃ t,
    _partial_pw (Some ids) id_pairs counts (BCallable f) kwargs
      = (t, inl (ValueError "Distance matrix 'X' must be symmetric.")) ∧
    Forall2 (λ p ev, ∃ i j a b, resolves ids counts p i j a b ∧
                                ev = EvBetaMetric a b) id_pairs t.
Proof.
  intros Hacc Hlen Hf Hp Hr Hnan.
  destruct (fill_dm_run ids id_pairs counts f kwargs g Hacc Hlen Hf)
    as (dm & tr & _ & Hsq & Hlog & Hset & _ & _ & Hrun).
  exists tr. split; [|done]. rewrite Hrun. f_equal.
  destruct (cell_of_lt _ _ _ _ (proj1 Hr)) as [Hi Hj].
  apply (squareform_madd_transpose_nan (length ids) dm i j); [done..|].
  destruct (Hset p i j a b Hp Hr) as [-> ->]. by rewrite dadd_0_r.
Qed.

(** ** Failures inside the loop of [_partial_pw] *)

Lemma for_each_app {A S} (body : S → A → @M Row S) (s : S) (l1 l2 : list A) :
  for_each body s (l1 ++ l2) = s' ← for_each body s l1; for_each body s' l2.
Proof.
  revert s. induction l1 as [|x l1 IH]; intros s.
  - cbn [for_each app]. by rewrite bind_ret_l.
  - cbn [for_each app]. rewrite bind_assoc.
    destruct (body s x) as [t [e|s1]]; [done|].
    cbn [mbind M_bind]. by rewrite IH.
Qed.

Lemma fill_prefix ids counts f kwargs id_pairs dm :
  square (length ids) dm →
  Forall (λ q, ∃ i j a b x, resolves ids counts q i j a b ∧
                            f kwargs a b = inr x) id_pairs →
  ∃ dm' tr,
    for_each (fill_step (make_id_index ids) counts f kwargs) dm id_pairs
      = (tr, inr dm') ∧
    square (length ids) dm' ∧ length tr = length id_pairs.
Proof.
  revert dm. induction id_pairs as [|p ps IH]; intros dm Hsq Hok.
  - by exists dm, [].
  - apply Forall_cons in Hok as [(i & j & a & b & x & Hp & Hx) Hok].
    destruct (fill_step_ok ids counts f kwargs dm p i j a b x Hsq Hp Hx)
      as (dm1 & Hstep & Hsq1 & _).
    destruct (IH dm1 Hsq1 Hok) as (dm' & tr & Hloop & Hsq' & Hlen).
    exists dm', (EvBetaMetric a b :: tr). split; [|split; [done|]].
    + cbn [for_each]. rewrite Hstep. cbn. by rewrite Hloop.
    + simpl. by rewrite Hlen.
Qed.

(** An exception raised by the metric is not intercepted: the pairs before
    it have been computed, the failing call is the last one made, and the
    exception is what [_partial_pw] raises. *)
Theorem partial_pw_metric_raises ids pre p post counts f kwargs i j a b e :
  pairs_accepted ids (pre ++ p :: post) →
  Forall (λ q, ∃ i j a b x, resolves ids counts q i j a b ∧
                            f kwargs a b = inr x) pre →
  resolves ids counts p i j a b →
  f kwargs a b = inl e →
  ∃ t,
    _partial_pw (Some ids) (pre ++ p :: post) counts (BCallable f) kwargs
      = (t ++ [EvBetaMetric a b], inl e) ∧
    length t = length pre.
Proof.
  intros [Hsub Hsize] Hpre ((Hu & Hv) & Ha & Hb) He.
  destruct (fill_prefix ids counts f kwargs pre (zeros (length ids))
              (zeros_square _) Hpre) as (dm & t & Hloop & _ & Hlen).
  exists t. split; [|done]. unfold _partial_pw.
  case_bool_decide; [|done]. simpl.
  rewrite (proj2 (Nat.eqb_eq _ _) Hsize). simpl.
  assert (fill_step (make_id_index ids) counts f kwargs dm p
          = ([EvBetaMetric a b], inl e)) as Hstep.
  { unfold fill_step, dict_getitem, getitem, call2, external, pure_step.
    rewrite Hu, Hv. cbn. rewrite Ha, Hb. cbn. by rewrite He. }
  unfold fill_dm. rewrite for_each_app, Hloop.
  cbn [mbind M_bind for_each]. by rewrite Hstep.
Qed.

(** A pair whose id has no row in [counts] raises [IndexError]; when it is
    the first pair, nothing has been computed. *)
Theorem partial_pw_missing_row ids p post counts f kwargs i j :
  pairs_accepted ids (p :: post) →
  cell_of ids p i j →
  length counts ≤ i ∨ length counts ≤ j →
  ∃ msg,
    _partial_pw (Some ids) (p :: post) counts (BCallable f) kwargs
      = ([], inl (IndexError msg)).
Proof.
  intros [Hsub Hsize] [Hu Hv] Hshort. unfold _partial_pw.
  rewrite (proj2 (Nat.eqb_eq _ _) Hsize).
  case_bool_decide; [|done]. cbn [negb].
  assert (∃ msg, fill_step (make_id_index ids) counts f kwargs
                           (zeros (length ids)) p
                 = ([], inl (IndexError msg))) as [msg Hstep].
  { unfold fill_step, dict_getitem, getitem, pure_step.
    rewrite Hu, Hv. cbn.
    destruct (counts !! i) as [cu|] eqn:Hi; cbn; [|by eexists].
    destruct (counts !! j) as [cv|] eqn:Hj; cbn; [|by eexists].
    apply lookup_lt_Some in Hi, Hj. lia. }
  exists msg. unfold fill_dm. cbn [for_each]. by rewrite Hstep.
Qed.

End partial_pw_vector.

(** ** Errors and keywords in the two engines *)

Section engines_more.
Context {Row D V : Type} `{!Scalar D} (E : @externals Row D V).
Implicit Types (counts : list Row) (kwargs : gmap string V).
Implicit Types (ids : list string) (oids : option (list string)).
Implicit Types (id_pairs : list (string * string)).

Lemma alpha_results_raise (f : @callable1 Row D V) (bound kwargs : gmap string V)
    (g : Row → D) pre c post e :
  (∀ c', c' ∈ pre → f (kwargs ∪ bound) c' = inr (g c')) →
  f (kwargs ∪ bound) c = inl e →
  mapM (call1 (partial1 f bound) kwargs) (pre ++ c :: post)
    = (EvAlphaMetric <$> (pre ++ [c]), inl e).
Proof.
  induction pre as [|c0 pre IH]; intros Hg He.
  - cbn. unfold partial1 at 1. by rewrite He.
  - cbn. unfold partial1 at 1. rewrite Hg by (by left). cbn.
    rewrite IH; [done| |done]. intros; apply Hg; by right.
Qed.

(** An exception raised by the metric on a row is not intercepted by
    [alpha_diversity]: the rows before it have been scored, no later row
    is, no partial series is returned and the exception is what the call
    raises. *)
Theorem alpha_diversity_metric_raises (metric : @alpha_metric Row D V)
    (f : @callable1 Row D V) (g : Row → D) pre c post oids kwargs e :
  (metric = ACallable f ∨
   ∃ name, metric = AName name ∧ name ≠ "faith_pd" ∧
           _get_alpha_diversity_metric_map E !! name = Some f) →
  (∀ c', c' ∈ pre → f kwargs c' = inr (g c')) →
  f kwargs c = inl e →
  alpha_diversity E metric (pre ++ c :: post) oids false kwargs
    = (EvAlphaMetric <$> (pre ++ [c]), inl e).
Proof.
  intros Hmetric Hg He.
  assert (mapM (call1 (partial1 f kwargs) kwargs) (pre ++ c :: post)
          = (EvAlphaMetric <$> (pre ++ [c]), inl e)) as Hmap.
  { apply (alpha_results_raise f kwargs kwargs g).
    - intros c' Hc'. rewrite (idemp (∪) kwargs). by apply Hg.
    - by rewrite (idemp (∪) kwargs). }
  unfold alpha_diversity.
  destruct Hmetric as [->|(name & -> & Hname & Hreg)].
  - cbn. by rewrite Hmap.
  - rewrite alpha_metric_eq_name by done. rewrite Hreg. cbn. by rewrite Hmap.
Qed.

(** When validation is on and refuses the input, that error is what both
    engines raise, whatever the metric and the other arguments are: an
    unknown metric name or conflicting backend arguments go unreported,
    and nothing else is called. *)
Theorem validation_error_comes_first counts oids e :
  _validate_counts_matrix E counts oids = inl e →
  (∀ metric kwargs,
     alpha_diversity E metric counts oids true kwargs = ([EvValidate], inl e)) ∧
  (∀ metric pairwise_func oid_pairs kwargs,
     beta_diversity E metric counts oids true pairwise_func oid_pairs kwargs
       = ([EvValidate], inl e)).
Proof.
  intros Hv. split.
  - intros metric kwargs. unfold alpha_diversity. by rewrite Hv.
  - intros metric pf oid_pairs kwargs. unfold beta_diversity, beta_validate.
    by rewrite Hv.
Qed.

(** [id_pairs] without [ids] is refused by the backend: once validation
    and metric resolution are through, [beta_diversity] raises "`ids` must
    be specified if `id_pairs` is specified" and no distance is computed. *)
Theorem beta_diversity_id_pairs_need_ids
    (metric : @beta_metric Row D V) counts validate id_pairs kwargs :
  let prepared :=
    counts' ← beta_validate E counts None validate;
    beta_resolve E metric counts' validate kwargs in
  beta_diversity E metric counts None validate None (Some id_pairs) kwargs
    = (trace prepared ++
         match outcome prepared with inl _ => [] | inr _ => [EvPairwise] end,
       inl (match outcome prepared with
            | inl e => e
            | inr _ => ValueError "`ids` must be specified if `id_pairs` is specified"
            end)).
Proof.
  intros prepared. unfold beta_diversity. rewrite <- bind_assoc. fold prepared.
  destruct prepared as [t [e|[[metric' counts'] kwargs']]]; cbn.
  - by rewrite app_nil_r.
  - done.
Qed.

Lemma for_each_ext {A S} (body body' : S → A → @M Row S) (s : S) (l : list A) :
  (∀ s x, body s x = body' s x) → for_each body s l = for_each body' s l.
Proof.
  intros Hbody. revert s. induction l as [|x l IH]; intros s; [done|].
  cbn [for_each]. rewrite Hbody.
  destruct (body' s x) as [t [e|s1]]; [done|]. cbn [mbind M_bind].
  by rewrite IH.
Qed.

Lemma partial2_no_keywords (f : @callable2 Row D V) kwargs :
  partial2 f kwargs ∅ = f kwargs.
Proof. unfold partial2. by rewrite (left_id ∅ (∪) kwargs). Qed.

Lemma partial_pw_partial2 oids id_pairs counts (f : @callable2 Row D V) kwargs :
  _partial_pw oids id_pairs counts (BCallable (partial2 f kwargs)) ∅
    = _partial_pw oids id_pairs counts (BCallable f) kwargs.
Proof.
  unfold _partial_pw, fill_dm. destruct oids as [l|]; [|done].
  rewrite (for_each_ext _ (fill_step (make_id_index l) counts f kwargs)); [done|].
  intros dm p. unfold fill_step, call2. by rewrite partial2_no_keywords.
Qed.

Lemma pdist_with_partial2 (f : @callable2 Row D V) counts kwargs :
  pdist_with (partial2 f kwargs) counts ∅ = pdist_with f counts kwargs.
Proof.
  unfold pdist_with, call2. by rewrite partial2_no_keywords.
Qed.

Lemma beta_diversity_callable_run
    (f : @callable2 Row D V) counts oids validate
    (oid_pairs : option (list (string * string))) kwargs :
  beta_diversity E (BCallable f) counts oids validate None oid_pairs kwargs
    = (counts' ← beta_validate E counts oids validate;
       distances ←
         invoke (match oid_pairs with
                 | Some id_pairs => _partial_pw oids id_pairs
                 | None => pdist E
                 end) counts' (BCallable f) kwargs;
       pure_step (DistanceMatrix_new distances oids)).
Proof.
  unfold beta_diversity.
  destruct (beta_validate E counts oids validate) as [t [e|counts']]; [done|].
  cbn [mbind M_bind]. unfold beta_resolve. cbn [beta_metric_eq].
  rewrite bind_ret_l. unfold beta_backend.
  destruct oid_pairs as [id_pairs|]; rewrite !bind_ret_l; cbn [default];
    unfold invoke.
  - unfold id. by rewrite partial_pw_partial2.
  - unfold id, pdist. by rewrite pdist_with_partial2.
Qed.

(** The keywords given to [beta_diversity] reach a callable metric once
    and unchanged: binding them with [functools.partial] and clearing
    [kwargs] (lines 328-331) gives, with either built-in backend, the
    run of that backend on the callable with the keywords passed along. *)
Theorem beta_diversity_binds_keywords
    (f : @callable2 Row D V) counts oids validate
    (oid_pairs : option (list (string * string))) kwargs :
  beta_diversity E (BCallable f) counts oids validate None oid_pairs kwargs
    = (counts' ← beta_validate E counts oids validate;
       distances ←
         invoke (match oid_pairs with
                 | Some id_pairs => _partial_pw oids id_pairs
                 | None => pdist E
                 end) counts' (BCallable f) kwargs;
       pure_step (DistanceMatrix_new distances oids)).
Proof. apply beta_diversity_callable_run. Qed.

Lemma partial_pw_name_accepted ids id_pairs counts name kwargs :
  pairs_accepted ids id_pairs →
  _partial_pw (Some ids) id_pairs counts (@BName Row D V name) kwargs
    = raise (ValueError "`metric` must be callable").
Proof.
  intros [Hsub Hsize]. unfold _partial_pw.
  rewrite (proj2 (Nat.eqb_eq _ _) Hsize).
  by case_bool_decide.
Qed.

(** With [id_pairs], a metric string that scikit-bio does not resolve
    itself is refused: it goes through resolution unchanged and the
    restricted backend raises "`metric` must be callable", no distance
    computed. *)
Theorem beta_diversity_id_pairs_refuse_other_names
    name counts ids id_pairs kwargs :
  name ∉ get_beta_diversity_metrics →
  pairs_accepted ids id_pairs →
  beta_diversity E (BName name) counts (Some ids) false None (Some id_pairs) kwargs
    = ([EvPairwise], inl (ValueError "`metric` must be callable")).
Proof.
  intros Hname Hacc. unfold beta_diversity, beta_validate.
  rewrite bind_ret_l, beta_resolve_unlisted by done.
  rewrite bind_ret_l. unfold beta_backend. rewrite !bind_ret_l.
  cbn [default]. unfold invoke, id. by rewrite partial_pw_name_accepted.
Qed.

Lemma upper_triangle_not_nan n (dm : list (list D)) :
  square n dm →
  (∀ i j, is_nan (dadd (cell dm i j) (cell dm j i)) = false) →
  Forall (λ x, is_nan x = false) (upper_triangle (madd dm (transpose dm))).
Proof.
  intros Hsq Hnan. unfold upper_triangle.
  destruct (madd_square _ _ _ Hsq (transpose_square _ _ Hsq)) as [-> _].
  apply Forall_fmap, Forall_forall. intros [i j] Hin.
  apply elem_of_index_pairs in Hin. cbn.
  rewrite (cell_madd_transpose n) by (done || lia). apply Hnan.
Qed.

Lemma DistanceMatrix_of_partial_pw ids id_pairs counts
    (metric : @beta_metric Row D V) kwargs t d :
  NoDup ids → ids ≠ [] →
  Forall (λ x, is_nan x = false) d →
  _partial_pw (Some ids) id_pairs counts metric kwargs = (t, inr d) →
  DistanceMatrix_new d (Some ids) = inr {| condensed := d; dm_ids := ids |}.
Proof.
  intros Hnd Hne Hnan Hrun. apply partial_pw_length in Hrun.
  pose proof (index_pairs_length (length ids)) as Hlen.
  assert (length d = length (index_pairs (length ids))) as Hd by lia.
  apply (DistanceMatrix_new_ids d (length ids)); [|done..].
  rewrite Hd. apply condensed_dim_index_pairs.
  destruct ids; [done|simpl; lia].
Qed.

(** The restricted computation end to end: with unique ids, at least one
    of them, a callable metric that returns values that are not NaN on a
    listed pair, accepted pairs and a row for every id, [beta_diversity]
    returns the distance structure over [ids] that holds the vector of
    [_partial_pw], after exactly the metric calls of [_partial_pw]. *)
Theorem beta_diversity_restricted
    (f : @callable2 Row D V) (g : Row → Row → D) counts ids id_pairs kwargs :
  NoDup ids → ids ≠ [] →
  pairs_accepted ids id_pairs →
  length ids ≤ length counts →
  (∀ a b, f kwargs a b = inr (g a b)) →
  listed_not_nan ids counts id_pairs g →
  ∃ t d,
    _partial_pw (Some ids) id_pairs counts (BCallable f) kwargs = (t, inr d) ∧
    beta_diversity E (BCallable f) counts (Some ids) false None (Some id_pairs) kwargs
      = (EvPairwise :: t, inr {| condensed := d; dm_ids := ids |}).
Proof.
  intros Hnd Hne Hacc Hlen Hf Hnan.
  destruct (partial_pw_run ids id_pairs counts f kwargs g Hacc Hlen Hf Hnan)
    as (dm & tr & _ & Hsq & _ & _ & _ & Hsums & Hrun).
  eexists _, _. split; [exact Hrun|].
  rewrite beta_diversity_callable_run. unfold beta_validate, invoke.
  rewrite bind_ret_l. cbn -[_partial_pw DistanceMatrix_new].
  rewrite Hrun. cbn -[DistanceMatrix_new].
  rewrite (DistanceMatrix_of_partial_pw _ _ _ _ _ _ _ Hnd Hne
             (upper_triangle_not_nan _ _ Hsq Hsums) Hrun).
  by rewrite app_nil_r.
Qed.

(** A tree-aware name can be used with [id_pairs]: it is resolved to the
    callable of the setup before the backend sees it, and the restricted
    computation then runs on the node-level counts with the keywords left
    after [otu_ids] and [tree] are taken out. The ids are unique and at
    least one, and the callable is not NaN on a listed pair. *)
Theorem beta_diversity_unifrac_restricted
    (m : @callable2 Row D V) (g : Row → Row → D)
    counts counts_by_node ids id_pairs kwargs otu_ids tree :
  kwargs !! "otu_ids" = Some otu_ids →
  kwargs !! "tree" = Some tree →
  _setup_multiple_unweighted_unifrac E counts otu_ids tree false
    = inr (m, counts_by_node) →
  NoDup ids → ids ≠ [] →
  pairs_accepted ids id_pairs →
  length ids ≤ length counts_by_node →
  (∀ a b, m (delete "tree" (delete "otu_ids" kwargs)) a b = inr (g a b)) →
  listed_not_nan ids counts_by_node id_pairs g →
  ∃ t d,
    _partial_pw (Some ids) id_pairs counts_by_node (BCallable m)
                (delete "tree" (delete "otu_ids" kwargs)) = (t, inr d) ∧
    beta_diversity E (BName "unweighted_unifrac") counts (Some ids) false None
                   (Some id_pairs) kwargs
      = ([EvPhylogeneticKwargs;
          EvTreeSetup "_setup_multiple_unweighted_unifrac"; EvPairwise] ++ t,
         inr {| condensed := d; dm_ids := ids |}).
Proof.
  intros Hotu Htree Hsetup Hnd Hne Hacc Hlen Hm Hnan.
  destruct (partial_pw_run ids id_pairs counts_by_node m _ g Hacc Hlen Hm Hnan)
    as (dm & tr & _ & Hsq & _ & _ & _ & Hsums & Hrun).
  eexists _, _. split; [exact Hrun|].
  unfold beta_diversity, beta_validate. rewrite bind_ret_l.
  unfold beta_resolve. cbn [beta_metric_eq].
  rewrite bool_decide_eq_true_2 by done.
  unfold _get_phylogenetic_kwargs. rewrite Hotu, Htree.
  cbn -[_partial_pw DistanceMatrix_new]. rewrite Hsetup.
  cbn -[_partial_pw DistanceMatrix_new]. rewrite Hrun.
  cbn -[DistanceMatrix_new].
  rewrite (DistanceMatrix_of_partial_pw _ _ _ _ _ _ _ Hnd Hne
             (upper_triangle_not_nan _ _ Hsq Hsums) Hrun).
  by rewrite app_nil_r.
Qed.

(** The registry entry 'faith_pd' is never called by [alpha_diversity]:
    the name is taken by the tree-aware branch, so whatever function the
    registry holds, the result is the same. *)
Theorem alpha_diversity_faith_pd_ignores_registry
    (alpha : string → @callable1 Row D V) counts oids validate kwargs :
  alpha_diversity (with_alpha_module E alpha) (AName "faith_pd") counts oids
                  validate kwargs
    = alpha_diversity E (AName "faith_pd") counts oids validate kwargs.
Proof.
  unfold alpha_diversity. by rewrite !alpha_metric_eq_same.
Qed.

(** For 'weighted_unifrac' the keyword [normalized] is taken out of
    [kwargs] and handed to the setup, with the module default when it is
    absent; what resolution passes on to the backend holds neither
    [normalized] nor [otu_ids] nor [tree], and every other keyword as
    given. *)
Theorem weighted_unifrac_consumes_normalized
    counts validate kwargs t (metric' : @beta_metric Row D V) counts' kwargs' :
  beta_resolve E (BName "weighted_unifrac") counts validate kwargs
    = (t, inr (metric', counts', kwargs')) →
  kwargs' !! "normalized" = None ∧
  kwargs' !! "otu_ids" = None ∧
  kwargs' !! "tree" = None ∧
  (∀ k, k ≠ "normalized" → k ≠ "otu_ids" → k ≠ "tree" →
        kwargs' !! k = kwargs !! k) ∧
  ∃ otu_ids tree f,
    kwargs !! "otu_ids" = Some otu_ids ∧ kwargs !! "tree" = Some tree ∧
    metric' = BCallable f ∧
    _setup_multiple_weighted_unifrac E counts otu_ids tree
      (default (_normalize_weighted_unifrac_by_default E) (kwargs !! "normalized"))
      validate
      = inr (f, counts').
Proof.
  unfold beta_resolve. cbn [beta_metric_eq].
  rewrite bool_decide_eq_false_2 by done.
  rewrite bool_decide_eq_true_2 by done. cbv zeta. intros Hrun.
  apply bind_inr in Hrun as (? & [[otu_ids tree] kw] & ? & Hext & Hrun & _).
  apply bind_inr in Hrun as (? & [f cbn] & ? & Hsetup & Hrun & _).
  injection Hrun as _ <- <- <-.
  unfold external, _get_phylogenetic_kwargs in Hext.
  rewrite !lookup_delete_ne in Hext by done.
  destruct (kwargs !! "otu_ids") as [o|] eqn:Hotu; [|done].
  destruct (kwargs !! "tree") as [tr|] eqn:Htree; [|done].
  injection Hext as _ <- <- <-.
  injection Hsetup as _ Hsetup.
  split; [|split; [|split; [|split]]].
  - rewrite !lookup_delete_ne by done. apply lookup_delete_eq.
  - rewrite lookup_delete_ne by done. apply lookup_delete_eq.
  - apply lookup_delete_eq.
  - intros k ???. by rewrite !lookup_delete_ne.
  - by exists o, tr, f.
Qed.

End engines_more.

(** ** The further properties on concrete calls *)

Lemma partial_pw_unknown_id_witness :
  _partial_pw (Some ids3) [("s1", "s2"); ("s1", "x")] counts3
              (BCallable row_total) (∅ : gmap string string)
    = ([], inl (ValueError "`id_pairs` are not a subset of `ids`")).
Proof.
  apply (partial_pw_unknown_id ids3 [("s1", "s2"); ("s1", "x")] counts3
           (BCallable row_total) ∅ "s1" "x").
  - apply (bool_decide_unpack _). by vm_compute.
  - right. apply (bool_decide_unpack _). by vm_compute.
Defined.

Lemma partial_pw_accepts_distinct_pairs_witness :
  ∃ t d,
    _partial_pw (Some ids3) [("s1", "s2"); ("s3", "s2")] counts3
                (BCallable row_total) (∅ : gmap string string)
      = (t, inr d).
Proof.
  apply (partial_pw_accepts_distinct_pairs ids3 [("s1", "s2"); ("s3", "s2")]
           counts3 row_total ∅ (λ a b, (row_sum a + row_sum b)%Z)).
  - intros u v Hin.
    apply elem_of_cons in Hin as [[= -> ->]|Hin];
      [split; apply (bool_decide_unpack _); by vm_compute|].
    apply elem_of_cons in Hin as [[= -> ->]|Hin];
      [split; apply (bool_decide_unpack _); by vm_compute|].
    by apply elem_of_nil in Hin.
  - intros Hrep. apply repeats_a_pair_not_NoDup in Hrep. apply Hrep.
    apply hashes_size_iff. by vm_compute.
  - intros a Hin. apply self_pair_not_NoDup in Hin. apply Hin.
    apply hashes_size_iff. by vm_compute.
  - simpl. lia.
  - reflexivity.
  - intros p i j a b _ _. reflexivity.
Defined.

Lemma partial_pw_vector_length_witness :
  2 * length [6; 0; 0]%Z = length ids3 * (length ids3 - 1).
Proof.
  apply (partial_pw_vector_length ids3 [("s1", "s2")] counts3
           (BCallable row_total) (∅ : gmap string string)
           [EvBetaMetric [1; 3]%Z [1; 1]%Z] [6; 0; 0]%Z).
  by vm_compute.
Defined.

Lemma partial_pw_entries_witness :
  ∃ t d,
    _partial_pw (Some ids3) [("s1", "s2"); ("s3", "s2")] counts3
                (BCallable row_difference) (∅ : gmap string string)
      = (t, inr d) ∧
    ∀ k i j u v a b,
      index_pairs (length ids3) !! k = Some (i, j) →
      ids3 !! i = Some u → ids3 !! j = Some v →
      counts3 !! i = Some a → counts3 !! j = Some b →
      ((u, v) ∈ [("s1", "s2"); ("s3", "s2")] →
       d !! k = Some (row_sum a - row_sum b)%Z) ∧
      ((v, u) ∈ [("s1", "s2"); ("s3", "s2")] →
       d !! k = Some (row_sum b - row_sum a)%Z) ∧
      ((u, v) ∉ [("s1", "s2"); ("s3", "s2")] →
       (v, u) ∉ [("s1", "s2"); ("s3", "s2")] → d !! k = Some dzero).
Proof.
  apply (partial_pw_entries ids3 [("s1", "s2"); ("s3", "s2")] counts3
           row_difference ∅ (λ a b, (row_sum a - row_sum b)%Z)).
  - apply (bool_decide_unpack _). by vm_compute.
  - split.
    + apply (bool_decide_unpack _). by vm_compute.
    + by vm_compute.
  - simpl. lia.
  - reflexivity.
  - intros p i j a b _ _. reflexivity.
Defined.

Lemma partial_pw_order_irrelevant_witness :
  ∃ t t' d,
    _partial_pw (Some ids3) [("s1", "s2"); ("s3", "s2")] counts3
                (BCallable row_difference) (∅ : gmap string string)
      = (t, inr d) ∧
    _partial_pw (Some ids3) [("s3", "s2"); ("s1", "s2")] counts3
                (BCallable row_difference) (∅ : gmap string string)
      = (t', inr d) ∧
    t ≡ₚ t' ∧
    Forall2 (λ p ev, ∃ i j a b, resolves ids3 counts3 p i j a b ∧
                                ev = EvBetaMetric a b)
            [("s1", "s2"); ("s3", "s2")] t ∧
    Forall2 (λ p ev, ∃ i j a b, resolves ids3 counts3 p i j a b ∧
                                ev = EvBetaMetric a b)
            [("s3", "s2"); ("s1", "s2")] t'.
Proof.
  apply (partial_pw_order_irrelevant ids3 [("s1", "s2"); ("s3", "s2")]
           [("s3", "s2"); ("s1", "s2")] counts3 row_difference ∅
           (λ a b, (row_sum a - row_sum b)%Z)).
  - apply perm_swap.
  - split.
    + apply (bool_decide_unpack _). by vm_compute.
    + by vm_compute.
  - simpl. lia.
  - reflexivity.
  - intros p i j a b _ _. reflexivity.
Defined.

Lemma partial_pw_nan_raises_witness :
  ∃ t,
    _partial_pw (Some ids3) [("s1", "s3"); ("s1", "s2")] counts_with_empty
                (BCallable nan_ratio) (∅ : gmap string string)
      = (t, inl (ValueError "Distance matrix 'X' must be symmetric.")) ∧
    Forall2 (λ p ev, ∃ i j a b, resolves ids3 counts_with_empty p i j a b ∧
                                ev = EvBetaMetric a b)
            [("s1", "s3"); ("s1", "s2")] t.
Proof.
  apply (partial_pw_nan_raises ids3 [("s1", "s3"); ("s1", "s2")]
           counts_with_empty nan_ratio ∅
           (λ a b, if decide (row_sum b = 0%Z) then NaN
                   else Num (row_sum a / row_sum b))
           ("s1", "s2") 0 1 [1; 3]%Z [0; 0]%Z).
  - split.
    + apply (bool_decide_unpack _). by vm_compute.
    + by vm_compute.
  - simpl. lia.
  - reflexivity.
  - apply (bool_decide_unpack _). by vm_compute.
  - by vm_compute.
  - reflexivity.
Defined.

Lemma partial_pw_metric_raises_witness :
  ∃ t,
    _partial_pw (Some ids3) ([("s1", "s3")] ++ ("s1", "s2") :: [("s2", "s3")])
                counts_with_empty (BCallable row_ratio)
                (∅ : gmap string string)
      = (t ++ [EvBetaMetric [1; 3]%Z [0; 0]%Z], inl (ValueError "empty sample")) ∧
    length t = length [("s1", "s3")].
Proof.
  apply (partial_pw_metric_raises ids3 [("s1", "s3")] ("s1", "s2")
           [("s2", "s3")] counts_with_empty row_ratio ∅ 0 1
           [1; 3]%Z [0; 0]%Z (ValueError "empty sample")).
  - split.
    + apply (bool_decide_unpack _). by vm_compute.
    + by vm_compute.
  - constructor; [|constructor].
    exists 0, 2, [1; 3]%Z, [0; 1]%Z, 4%Z. by vm_compute.
  - by vm_compute.
  - reflexivity.
Defined.

Lemma partial_pw_missing_row_witness :
  ∃ msg,
    _partial_pw (Some ids3) [("s1", "s3"); ("s1", "s2")] [[1; 3]]%Z
                (BCallable row_total) (∅ : gmap string string)
      = ([], inl (IndexError msg)).
Proof.
  apply (partial_pw_missing_row ids3 ("s1", "s3") [("s1", "s2")] [[1; 3]]%Z
           row_total ∅ 0 2).
  - split.
    + apply (bool_decide_unpack _). by vm_compute.
    + by vm_compute.
  - by vm_compute.
  - right. simpl. lia.
Defined.

Lemma alpha_diversity_metric_raises_witness :
  alpha_diversity easy_externals (ACallable observed_nonempty)
                  ([[1; 3]%Z] ++ [0; 0]%Z :: [[0; 1]%Z]) (Some ids3) false ∅
    = (EvAlphaMetric <$> ([[1; 3]%Z] ++ [[0; 0]%Z]),
       inl (ValueError "empty sample")).
Proof.
  apply (alpha_diversity_metric_raises easy_externals
           (ACallable observed_nonempty) observed_nonempty count_nonzero
           [[1; 3]%Z] [0; 0]%Z [[0; 1]%Z] (Some ids3) ∅
           (ValueError "empty sample")).
  - by left.
  - intros c' Hc'. apply list_elem_of_singleton in Hc' as ->. reflexivity.
  - reflexivity.
Defined.

Lemma validation_error_comes_first_witness :
  (∀ metric kwargs,
     alpha_diversity strict_externals metric counts3 (Some ids3) true kwargs
       = ([EvValidate],
          inl (ValueError "Counts vector cannot contain negative values."))) ∧
  (∀ metric pairwise_func oid_pairs kwargs,
     beta_diversity strict_externals metric counts3 (Some ids3) true
                    pairwise_func oid_pairs kwargs
       = ([EvValidate],
          inl (ValueError "Counts vector cannot contain negative values."))).
Proof.
  apply (validation_error_comes_first strict_externals counts3 (Some ids3)
           (ValueError "Counts vector cannot contain negative values.")).
  reflexivity.
Defined.

Lemma beta_diversity_id_pairs_refuse_other_names_witness :
  beta_diversity easy_externals (BName "braycurtis") counts3 (Some ids3) false
                 None (Some [("s1", "s2")]) ∅
    = ([EvPairwise], inl (ValueError "`metric` must be callable")).
Proof.
  apply (beta_diversity_id_pairs_refuse_other_names easy_externals
           "braycurtis" counts3 ids3 [("s1", "s2")] ∅).
  - apply (bool_decide_unpack _). by vm_compute.
  - split.
    + apply (bool_decide_unpack _). by vm_compute.
    + by vm_compute.
Defined.

Lemma beta_diversity_restricted_witness :
  ∃ t d,
    _partial_pw (Some ids3) [("s1", "s2"); ("s3", "s2")] counts3
                (BCallable row_total) (∅ : gmap string string) = (t, inr d) ∧
    beta_diversity easy_externals (BCallable row_total) counts3 (Some ids3)
                   false None (Some [("s1", "s2"); ("s3", "s2")]) ∅
      = (EvPairwise :: t, inr {| condensed := d; dm_ids := ids3 |}).
Proof.
  apply (beta_diversity_restricted easy_externals row_total
           (λ a b, (row_sum a + row_sum b)%Z) counts3 ids3
           [("s1", "s2"); ("s3", "s2")] ∅).
  - apply (bool_decide_unpack _). by vm_compute.
  - done.
  - split.
    + apply (bool_decide_unpack _). by vm_compute.
    + by vm_compute.
  - simpl. lia.
  - reflexivity.
  - intros p i j a b _ _. reflexivity.
Defined.

Lemma beta_diversity_unifrac_restricted_witness :
  ∃ t d,
    _partial_pw (Some ids3) [("s1", "s2")] counts3 (BCallable row_total)
                (delete "tree" (delete "otu_ids" tree_kwargs)) = (t, inr d) ∧
    beta_diversity easy_externals (BName "unweighted_unifrac") counts3
                   (Some ids3) false None (Some [("s1", "s2")]) tree_kwargs
      = ([EvPhylogeneticKwargs;
          EvTreeSetup "_setup_multiple_unweighted_unifrac"; EvPairwise] ++ t,
         inr {| condensed := d; dm_ids := ids3 |}).
Proof.
  apply (beta_diversity_unifrac_restricted easy_externals row_total
           (λ a b, (row_sum a + row_sum b)%Z) counts3 counts3 ids3
           [("s1", "s2")] tree_kwargs "OTU1,OTU2" "(OTU1:0.5,OTU2:0.5)root;").
  - by vm_compute.
  - by vm_compute.
  - reflexivity.
  - apply (bool_decide_unpack _). by vm_compute.
  - done.
  - split.
    + apply (bool_decide_unpack _). by vm_compute.
    + by vm_compute.
  - simpl. lia.
  - reflexivity.
  - intros p i j a b _ _. reflexivity.
Defined.

Lemma weighted_unifrac_consumes_normalized_witness :
  (∅ : gmap string string) !! "normalized" = None ∧
  (∅ : gmap string string) !! "otu_ids" = None ∧
  (∅ : gmap string string) !! "tree" = None ∧
  (∀ k, k ≠ "normalized" → k ≠ "otu_ids" → k ≠ "tree" →
        (∅ : gmap string string) !! k
        = (<["normalized" := "True"]> tree_kwargs) !! k) ∧
  ∃ otu_ids tree f,
    (<["normalized" := "True"]> tree_kwargs) !! "otu_ids" = Some otu_ids ∧
    (<["normalized" := "True"]> tree_kwargs) !! "tree" = Some tree ∧
    BCallable row_total = BCallable f ∧
    _setup_multiple_weighted_unifrac easy_externals counts3 otu_ids tree
      (default (_normalize_weighted_unifrac_by_default easy_externals)
               ((<["normalized" := "True"]> tree_kwargs) !! "normalized"))
      true
      = inr (f, counts3).
Proof.
  apply (weighted_unifrac_consumes_normalized easy_externals counts3 true
           (<["normalized" := "True"]> tree_kwargs)
           [EvPhylogeneticKwargs; EvTreeSetup "_setup_multiple_weighted_unifrac"]
           (BCallable row_total) counts3 ∅).
  by vm_compute.
Defined.
